(** * cococo: the note store, the masking engine and the grid geometry

    A shallow embedding of the editor core ([Editor], the current store with
    per-voice step masks), of the earlier flag-toggling editor
    ([FlagEditor], src/core/editor.ts) and of the geometry helpers of
    src/core/interactions.ts, with the properties the specification states
    about them.

    Conventions of the embedding.
    - JavaScript numbers that hold grid steps, pitches and ids are exact
      integers ([Z]); pointer coordinates and quotients are exact rationals
      ([Q]).  This is the behaviour of IEEE doubles on the safe-integer
      range, which is where the editor works.
    - A [Note] is a heap object: the maps and sets of the editor hold
      references ([ref]) and [===] compares references.  The heap is a
      finite map from references to the objects' fields.
    - A JavaScript [Map] and a [Set] iterate in insertion order; they are
      association lists and duplicate-free lists here.
    - A thrown exception is the [Err] case of [result]. *)

From Stdlib Require Import ZArith QArith Qround Lia.
From stdpp Require Import base option list gmap sorting.

Local Open Scope Z_scope.

(** ** Exceptions *)

Inductive JsError : Type :=
  | TypeError          (* property access on [undefined] *)
  | RangeError         (* maximum call stack size exceeded *)
  | ContractViolation. (* misuse of the undo manager *)

Inductive result (A : Type) : Type :=
  | Ok (a : A)
  | Err (e : JsError).
Arguments Ok {A} a.
Arguments Err {A} e.

#[global] Instance result_ret : MRet result := fun A a => Ok a.
#[global] Instance result_bind : MBind result := fun A B k r =>
  match r with
  | Ok a => k a
  | Err e => Err e
  end.

(** ** lodash *)

Module Lodash.

(** [baseClamp(number, lower, upper)]: each bound is applied only when it
    is not [undefined]; the upper bound first. *)
Definition baseClamp (number : Z) (lower upper : option Z) : Z :=
  let number :=
    match upper with
    | Some u => if number <=? u then number else u
    | None => number
    end in
  match lower with
  | Some l => if number >=? l then number else l
  | None => number
  end.

(** [_.clamp(number, lower, upper)].  The third argument may be left out:
    [if (upper === undefined) { upper = lower; lower = undefined; }]. *)
Definition clamp (number : Z) (lower : Z) (upper : option Z) : Z :=
  match upper with
  | None => baseClamp number None (Some lower)
  | Some u => baseClamp number (Some lower) (Some u)
  end.

(** [_.range(start, end)] on integers: the step is [1] when
    [start < end] and [-1] otherwise; [end] is excluded. *)
Definition range (start end_ : Z) : list Z :=
  if start <? end_
  then seqZ start (end_ - start)
  else (fun i => start - i) <$> seqZ 0 (start - end_).

End Lodash.

(** ** Insertion-ordered maps and sets *)

Module JsMap.
Abbreviation t V := (list (Z * V)).

Section map.
Context {V : Type}.

Definition has (k : Z) (m : t V) : bool :=
  bool_decide (k ∈ m.*1).

Fixpoint get (k : Z) (m : t V) : option V :=
  match m with
  | [] => None
  | (k', v) :: m' => if decide (k' = k) then Some v else get k m'
  end.

(** [map.set(k, v)]: an existing key keeps its place. *)
Definition set (k : Z) (v : V) (m : t V) : t V :=
  if has k m
  then (fun kv : Z * V => if decide (kv.1 = k) then (k, v) else kv) <$> m
  else m ++ [(k, v)].

Definition delete (k : Z) (m : t V) : t V :=
  filter (fun kv : Z * V => kv.1 ≠ k) m.

Definition values (m : t V) : list V := m.*2.
End map.
End JsMap.

Module JsSet.
Section set.
Context {A : Type} `{EqDecision A}.

Definition add (x : A) (s : list A) : list A :=
  if decide (x ∈ s) then s else s ++ [x].

Definition delete (x : A) (s : list A) : list A :=
  filter (fun y => y ≠ x) s.

(** [new Set(iterable)] *)
Definition of_list (l : list A) : list A :=
  foldl (fun s x => add x s) [] l.
End set.
End JsSet.

(** [array.sort((a, b) => a - b)] on integers. *)
Definition sort_ascending (l : list Z) : list Z := merge_sort Z.le l.

(** ** Notes *)

(** Modelled from the spec: the [Voice] enumeration of ./note, which is not
    among the sources; four voices, used as indices [0..3] into the
    per-voice arrays. *)
Inductive Voice : Type := SOPRANO | ALTO | TENOR | BASS.

Definition voiceIndex (v : Voice) : nat :=
  match v with SOPRANO => 0 | ALTO => 1 | TENOR => 2 | BASS => 3 end%nat.

(** Modelled from the spec: the [Source] enumeration of ./note. *)
Inductive Source : Type := USER | AGENT.

(** Modelled from the spec: the fields of class [Note] of ./note. *)
Record Note : Type := mkNote {
  id : Z;
  pitch : Z;
  position : Z;
  duration : Z;
  voice : Voice;
  source : Source;
  isPlaying : bool;
  isMasked : bool
}.

#[global] Instance Voice_eq_dec : EqDecision Voice.
Proof. solve_decision. Defined.
#[global] Instance Source_eq_dec : EqDecision Source.
Proof. solve_decision. Defined.
#[global] Instance Note_eq_dec : EqDecision Note.
Proof. solve_decision. Defined.

(** Modelled from the spec: the derived getters [start = position] and
    [end = position + duration] of class [Note]. *)
Definition start (n : Note) : Z := position n.
Definition end_ (n : Note) : Z := position n + duration n.

(** Modelled from the spec: [moveStart(x)] of class [Note] moves the start
    to [x] and keeps the end. *)
Definition moveStart (x : Z) (n : Note) : Note :=
  mkNote (id n) (pitch n) x (end_ n - x) (voice n) (source n)
         (isPlaying n) (isMasked n).

(** References to note objects. *)
Definition ref : Type := positive.

(** ** The editor core (the current store) *)

Module Editor.

(** Modelled from the spec: the undo manager of ./undo, which is not among
    the sources.  It is IDLE or TRANSACTION_OPEN; it keeps the snapshot
    taken at [beginUndoable] and the stacks of (before, after) pairs.  A
    snapshot is the sequence of persistent notes as value copies. *)
Definition Snapshot : Type := list Note.

Record UndoManager : Type := mkUndoManager {
  transactionOpen : bool;
  beforeSnapshot : Snapshot;
  undoStack : list (Snapshot * Snapshot);
  redoStack : list (Snapshot * Snapshot)
}.

(** The fields of class [Editor] that the methods below read and write,
    the heap of note objects they refer to, and the state of the undo
    manager the methods call. *)
Record t : Type := mkEditor {
  heap : gmap ref Note;
  notesMap : JsMap.t ref;
  tempNotesMap : JsMap.t ref;
  totalSixteenths : Z;
  quantizeStep : Z;
  generationMasks : list (list Z);
  currentlySelectedNotes : list ref;
  currentlyPlayingNotes : list ref;
  undo : UndoManager
}.

Definition with_heap (h : gmap ref Note) (ed : t) : t :=
  mkEditor h (notesMap ed) (tempNotesMap ed) (totalSixteenths ed)
    (quantizeStep ed) (generationMasks ed) (currentlySelectedNotes ed)
    (currentlyPlayingNotes ed) (undo ed).

Definition with_notesMap (m : JsMap.t ref) (ed : t) : t :=
  mkEditor (heap ed) m (tempNotesMap ed) (totalSixteenths ed)
    (quantizeStep ed) (generationMasks ed) (currentlySelectedNotes ed)
    (currentlyPlayingNotes ed) (undo ed).

Definition with_generationMasks (g : list (list Z)) (ed : t) : t :=
  mkEditor (heap ed) (notesMap ed) (tempNotesMap ed) (totalSixteenths ed)
    (quantizeStep ed) g (currentlySelectedNotes ed)
    (currentlyPlayingNotes ed) (undo ed).

Definition with_selected (s : list ref) (ed : t) : t :=
  mkEditor (heap ed) (notesMap ed) (tempNotesMap ed) (totalSixteenths ed)
    (quantizeStep ed) (generationMasks ed) s
    (currentlyPlayingNotes ed) (undo ed).

Definition with_playing (s : list ref) (ed : t) : t :=
  mkEditor (heap ed) (notesMap ed) (tempNotesMap ed) (totalSixteenths ed)
    (quantizeStep ed) (generationMasks ed) (currentlySelectedNotes ed)
    s (undo ed).

Definition with_undo (u : UndoManager) (ed : t) : t :=
  mkEditor (heap ed) (notesMap ed) (tempNotesMap ed) (totalSixteenths ed)
    (quantizeStep ed) (generationMasks ed) (currentlySelectedNotes ed)
    (currentlyPlayingNotes ed) u.

(** *** Undo transactions *)

(** Modelled from the spec: a snapshot copies the persistent notes, in the
    order of the map. *)
Definition snapshot (ed : t) : Snapshot :=
  omap (fun r => heap ed !! r) (JsMap.values (notesMap ed)).

(** Modelled from the spec: [beginUndoable] goes from IDLE to
    TRANSACTION_OPEN and captures the "before" snapshot; calling it while
    a transaction is open is a contract violation. *)
Definition beginUndoable (ed : t) : result t :=
  let u := undo ed in
  if transactionOpen u then Err ContractViolation
  else Ok (with_undo
             (mkUndoManager true (snapshot ed) (undoStack u) (redoStack u))
             ed).

(** Modelled from the spec: [completeUndoable] goes back to IDLE; when the
    collection changed it pushes (before, after) and clears the redo
    stack; completing a transaction that was never opened is a contract
    violation. *)
Definition completeUndoable (ed : t) : result t :=
  let u := undo ed in
  if transactionOpen u then
    let after := snapshot ed in
    if decide (beforeSnapshot u = after)
    then Ok (with_undo
               (mkUndoManager false [] (undoStack u) (redoStack u)) ed)
    else Ok (with_undo
               (mkUndoManager false []
                  ((beforeSnapshot u, after) :: undoStack u) []) ed)
  else Err ContractViolation.

(** Modelled from the spec: the [@undoable()] decorator of ./undo. The
    decorated method begins and completes a transaction around its body
    unless it already runs inside one. *)
Definition undoable (body : t -> result t) (ed : t) : result t :=
  if transactionOpen (undo ed) then body ed
  else ed1 ← beginUndoable ed; ed2 ← body ed1; completeUndoable ed2.

(** *** Queries *)

Definition tempNotes (ed : t) : list ref := JsMap.values (tempNotesMap ed).

Definition allNotes (ed : t) : list ref :=
  JsMap.values (notesMap ed) ++ tempNotes ed.

(** A test on the object a reference points to. *)
Definition holds (h : gmap ref Note) (p : Note -> bool) (r : ref) : bool :=
  match h !! r with
  | Some n => p n
  | None => false
  end.

Definition getNoteByPitchPosition (pitch0 position0 : Z) (ed : t)
  : option ref :=
  List.find
    (holds (heap ed)
       (fun n => bool_decide (pitch n = pitch0) &&
                 bool_decide (position n = position0)))
    (allNotes ed).

(** *** Playback *)

Definition setPlayingFlag (b : bool) (n : Note) : Note :=
  mkNote (id n) (pitch n) (position n) (duration n) (voice n) (source n)
         b (isMasked n).

Definition setCurrentlyPlaying (note : ref) (ed : t) : t :=
  with_playing (JsSet.add note (currentlyPlayingNotes ed))
    (with_heap (alter (setPlayingFlag true) note (heap ed)) ed).

(** One turn of the loop that clears the notes the playhead has passed. *)
Definition clearIfPassed (position0 : Z) (ed : t) (playingNote : ref) : t :=
  match heap ed !! playingNote with
  | Some n =>
      if bool_decide (position n + duration n <= position0)
      then with_playing (JsSet.delete playingNote (currentlyPlayingNotes ed))
             (with_heap
                (alter (setPlayingFlag false) playingNote (heap ed)) ed)
      else ed
  | None => ed
  end.

(** [setNotePlaying(pitch, position)].  [note.id] is read whether or not
    a note was found; on [undefined] that read throws. *)
Definition setNotePlaying (pitch0 position0 : Z) (ed : t) : result t :=
  let note := getNoteByPitchPosition pitch0 position0 ed in
  let ed1 :=
    match note with
    | Some r => setCurrentlyPlaying r ed
    | None => ed
    end in
  match note with
  | None => Err TypeError
  | Some r =>
      let tempNote :=
        n ← heap ed1 !! r; JsMap.get (id n) (tempNotesMap ed1) in
      let ed2 :=
        match tempNote with
        | Some tr => setCurrentlyPlaying tr ed1
        | None => ed1
        end in
      Ok (foldl (clearIfPassed position0) ed2 (currentlyPlayingNotes ed2))
  end.

(** *** Adding and removing notes *)

Definition _addNote (note : ref) (ed : t) : t :=
  match heap ed !! note with
  | Some n => with_notesMap (JsMap.set (id n) note (notesMap ed)) ed
  | None => ed
  end.

Definition addNote (note : ref) (shouldSelect : bool) : t -> result t :=
  undoable (fun ed =>
    let ed := _addNote note ed in
    Ok (if shouldSelect then with_selected [note] ed else ed)).

(** [removeNote(note) { this.removeNote(note); }]: the body calls the
    decorated method again.  [fuel] is the depth the call stack still
    allows; when it is used up the engine throws a [RangeError]. *)
Fixpoint removeNote (fuel : nat) (note : ref) (ed : t) : result t :=
  match fuel with
  | O => Err RangeError
  | S fuel' => undoable (removeNote fuel' note) ed
  end.

Definition _removeNote (note : ref) (ed : t) : t :=
  match heap ed !! note with
  | Some n => with_notesMap (JsMap.delete (id n) (notesMap ed)) ed
  | None => ed
  end.

(** *** Dragging *)

Definition startNoteDrag (ed : t) : result t := beginUndoable ed.

(** One turn of the loop of [endNoteDrag]. *)
Definition resolveConflict (note : ref) (ed : t) (other : ref) : t :=
  if decide (other = note) then ed
  else
    match heap ed !! other, heap ed !! note with
    | Some o, Some n =>
        if bool_decide (position o = position n) &&
           bool_decide (pitch o = pitch n)
        then with_notesMap (JsMap.delete (id n) (notesMap ed)) ed
        else ed
    | _, _ => ed
    end.

Definition endNoteDrag (note : ref) (ed : t) : result t :=
  completeUndoable (foldl (resolveConflict note) ed (allNotes ed)).

(** *** Overlap *)

Definition overlaps (n : Note) (positionRange pitchRange : Z * Z) : bool :=
  let '(startPosition, endPosition) := positionRange in
  let '(startValue, endValue) := pitchRange in
  if (pitch n <? startValue) || (pitch n >? endValue) then false
  else if (position n >=? startPosition) && (position n <? endPosition)
  then true
  else if (position n <? startPosition) &&
          (position n + duration n >? startPosition)
  then true
  else false.

(** One turn of the [forEach] of [trimOverlappingVoices]. *)
Definition trimOne (note : ref) (ed : t) (otherNote : ref) : t :=
  match heap ed !! otherNote, heap ed !! note with
  | Some o, Some n =>
      if end_ o >? end_ n
      then with_heap (<[otherNote := moveStart (end_ n) o]> (heap ed)) ed
      else _removeNote otherNote ed
  | _, _ => ed
  end.

(** [MIN_PITCH] and [MAX_PITCH] come from ./constants, which is not among
    the sources; they are parameters. *)
Definition trimOverlappingVoices (MIN_PITCH MAX_PITCH : Z)
    (note : ref) (ed : t) : t :=
  match heap ed !! note with
  | Some n =>
      let range := (start n, end_ n) in
      let overlappingNotes :=
        List.filter
          (fun otherNote =>
             negb (bool_decide (otherNote = note)) &&
             holds (heap ed)
               (fun o => bool_decide (voice o = voice n) &&
                         overlaps o range (MIN_PITCH, MAX_PITCH))
               otherNote)
          (allNotes ed) in
      foldl (trimOne note) ed overlappingNotes
  | None => ed
  end.

(** *** Generation masks *)

(** [this.generationMasks[voiceIndex]] as the argument of [new Set(...)]:
    an index past the end reads [undefined], which gives the empty set. *)
Definition maskAt (voiceIndex : nat) (ed : t) : list Z :=
  default [] (generationMasks ed !! voiceIndex).

(** [array[i] = x]: an index past the end extends the array; the holes
    read back as [undefined], which [maskAt] turns to the empty mask, so
    they are stored as empty masks. *)
Definition arraySet (i : nat) (x : list Z) (a : list (list Z))
  : list (list Z) :=
  if decide (i < length a)%nat then <[i := x]> a
  else a ++ replicate (i - length a) [] ++ [x].

Definition addMask (voiceIndex : nat) (mask : list Z) (ed : t) : t :=
  let maskSet := JsSet.of_list (maskAt voiceIndex ed) in
  let maskSet := foldl (fun s maskIndex => JsSet.add maskIndex s)
                   maskSet mask in
  with_generationMasks
    (arraySet voiceIndex (sort_ascending maskSet) (generationMasks ed)) ed.

Definition removeMask (voiceIndex : nat) (mask : list Z) (ed : t) : t :=
  let maskSet := JsSet.of_list (maskAt voiceIndex ed) in
  let maskSet := foldl (fun s maskIndex => JsSet.delete maskIndex s)
                   maskSet mask in
  with_generationMasks
    (arraySet voiceIndex (sort_ascending maskSet) (generationMasks ed)) ed.

(** One turn of the [forEach] of [maskNotes]. *)
Definition maskOne (positionRange : Z * Z) (ed : t) (note : ref) : t :=
  match heap ed !! note with
  | Some n =>
      let maskStart := Z.max positionRange.1 (start n) in
      let maskEnd := Z.min positionRange.2 (end_ n) in
      let maskRange := Lodash.range maskStart maskEnd in
      addMask (voiceIndex (voice n)) maskRange ed
  | None => ed
  end.

Definition maskNotes (positionRange pitchRange : Z * Z) : t -> result t :=
  undoable (fun ed =>
    let notesInMask :=
      List.filter
        (holds (heap ed) (fun n => overlaps n positionRange pitchRange))
        (allNotes ed) in
    Ok (foldl (maskOne positionRange) ed notesInMask)).

(** *** The rest of the store *)

Definition with_tempNotesMap (m : JsMap.t ref) (ed : t) : t :=
  mkEditor (heap ed) (notesMap ed) m (totalSixteenths ed)
    (quantizeStep ed) (generationMasks ed) (currentlySelectedNotes ed)
    (currentlyPlayingNotes ed) (undo ed).

(** [tempNotesMap.set(note.id, note)] *)
Definition _addTempNote (note : ref) (ed : t) : t :=
  match heap ed !! note with
  | Some n => with_tempNotesMap (JsMap.set (id n) note (tempNotesMap ed)) ed
  | None => ed
  end.

Definition setTempNotes (notes : list ref) (clear : bool) (ed : t) : t :=
  let ed := if clear then with_tempNotesMap [] ed else ed in
  foldl (fun e note => _addTempNote note e) ed notes.

Definition userNotes (ed : t) : list ref :=
  List.filter (holds (heap ed) (fun n => bool_decide (source n = USER)))
    (allNotes ed).

Definition agentNotes (ed : t) : list ref :=
  List.filter (holds (heap ed) (fun n => bool_decide (source n = AGENT)))
    (allNotes ed).

Definition isNoteSelected (note : ref) (ed : t) : bool :=
  bool_decide (note ∈ currentlySelectedNotes ed).

(** [clearPlayingNotes()]: the set is emptied, then every note of
    [allNotes] gets [isPlaying = false]. *)
Definition clearPlayingNotes (ed : t) : t :=
  foldl (fun e note =>
           with_heap (alter (setPlayingFlag false) note (heap e)) e)
    (with_playing [] ed) (allNotes ed).

Definition removeCandidateNoteSequence (notes : list ref) (ed : t) : t :=
  foldl (fun e note => _removeNote note e) ed notes.

(** One turn of the loop of [clearAgentNotes] over the entries. *)
Definition clearIfAgent (ed : t) (entry : Z * ref) : t :=
  if holds (heap ed) (fun n => bool_decide (source n = AGENT)) entry.2
  then with_notesMap (JsMap.delete entry.1 (notesMap ed)) ed
  else ed.

(** The body of [clearAgentNotes]; deleting the entry at hand does not
    disturb the iteration of a [Map]. *)
Definition clearAgentNotesBody (ed : t) : t :=
  foldl clearIfAgent ed (notesMap ed).

Definition clearAgentNotes : t -> result t :=
  undoable (fun ed => Ok (clearAgentNotesBody ed)).

Definition addAgentNotes (sequence : list ref) (replace : bool)
  : t -> result t :=
  undoable (fun ed =>
    ed ← (if replace then clearAgentNotes ed else Ok ed);
    Ok (foldl (fun e note => _addNote note e) ed sequence)).

Definition clearAllNotes : t -> result t :=
  undoable (fun ed => Ok (with_notesMap [] ed)).

Definition replaceAllNotes (notes : list ref) (ed : t) : t :=
  foldl (fun e note => _addNote note e) (with_notesMap [] ed) notes.

(** [isNoteMasked(note)].  The mask is [this.generationMasks[voice]]; past
    the end of the array that is [undefined], which [for ... of] cannot
    iterate. *)
Definition isNoteMasked (n : Note) (ed : t) : result bool :=
  match generationMasks ed !! voiceIndex (voice n) with
  | Some mask =>
      Ok (existsb (fun maskIndex =>
                     (maskIndex >=? start n) && (maskIndex <? end_ n)) mask)
  | None => Err TypeError
  end.

(** One turn of the loop of [getMaskedSequence]. *)
Definition pushIfMasked (ed : t) (acc : result (list ref)) (note : ref)
  : result (list ref) :=
  maskedSequence ← acc;
  match heap ed !! note with
  | Some n =>
      b ← isNoteMasked n ed;
      Ok (if b : bool then maskedSequence ++ [note] else maskedSequence)
  | None => Ok maskedSequence
  end.

Definition getMaskedSequence (ed : t) : result (list ref) :=
  foldl (pushIfMasked ed) (Ok []) (allNotes ed).

End Editor.

(** ** Grid geometry and the mask-lane handlers (src/core/interactions.ts) *)

Module Interactions.
Import Editor.

(** [Math.round] rounds to the nearest integer, halves upwards. *)
Definition Math_round (x : Q) : Z := Qfloor (x + (1 # 2))%Q.
Definition Math_floor (x : Q) : Z := Qfloor x.
Definition Math_ceil (x : Q) : Z := Qceiling x.

(** [quantizePosition(position, fn = Math.round)] *)
Definition quantizePosition (ed : t) (position0 : Q) (fn : Q -> Z) : Z :=
  fn (position0 / inject_Z (quantizeStep ed))%Q * quantizeStep ed.

(** [_.clamp(position, editor.totalSixteenths - 1)]: two arguments. *)
Definition clampPosition (ed : t) (position0 : Z) : Z :=
  Lodash.clamp position0 (totalSixteenths ed - 1) None.

Definition clampLoopPosition (ed : t) (position0 : Z) : Z :=
  Lodash.clamp position0 0 (Some (totalSixteenths ed)).

(** [MIN_PITCH] and [MAX_PITCH] of ./constants are parameters. *)
Definition clampPitch (MIN_PITCH MAX_PITCH : Z) (pitch0 : Z) : Z :=
  Lodash.clamp pitch0 MIN_PITCH (Some MAX_PITCH).

(** The [positionRange] that the [mouseUp] closure of
    [handleMaskLaneMouseDown(voiceIndex)] computes; [aX] and [bX] are
    [maskLaneDragStartX] and [maskLaneDragX], and [sixteenthWidth] is
    [layout.sixteenthWidth], a parameter. *)
Definition maskLanePositionRange (sixteenthWidth : Q) (aX bX : Q) (ed : t)
  : Z * Z :=
  let startX := if Qle_bool aX bX then aX else bX in
  let endX := if negb (Qle_bool aX bX) then aX else bX in
  (quantizePosition ed (startX / sixteenthWidth)%Q Math_floor,
   quantizePosition ed (endX / sixteenthWidth)%Q Math_ceil).

(** The [mouseUp] closure itself: the lane of the voice becomes the range. *)
Definition maskLaneMouseUp (sixteenthWidth : Q) (voiceIndex : nat)
    (aX bX : Q) (ed : t) : t :=
  let positionRange := maskLanePositionRange sixteenthWidth aX bX ed in
  with_generationMasks
    (arraySet voiceIndex
       (Lodash.range positionRange.1 positionRange.2)
       (generationMasks ed))
    ed.

Definition handleMaskLaneClick (voiceIndex : nat) (ed : t) : t :=
  addMask voiceIndex (Lodash.range 0 (totalSixteenths ed)) ed.

Definition handleMaskRectClick (voiceIndex : nat) (maskIndices : list Z)
    (ed : t) : t :=
  removeMask voiceIndex maskIndices ed.

(** *** Dragging notes and loop markers, and the mask tool *)

(** The private fields of [Interactions] that the drag handlers keep
    between [mousedown] and [mousemove]. *)
Record DragState : Type := mkDragState {
  noteDragStartX : Q;
  noteDragStartY : Q;
  noteDragStartPosition : Z;
  noteDragStartPitch : Z;
  loopStartDragStartX : Q;
  loopEndDragStartX : Q;
  loopStartDragStartPosition : Z;
  loopEndDragStartPosition : Z
}.

(** The fields of [layout] and of [engine] that the handlers use; both
    objects come from ./index and are not among the sources. *)
Record Layout : Type := mkLayout {
  sixteenthWidth : Q;
  noteHeight : Q
}.

Record Engine : Type := mkEngine {
  loopStart : Z;
  loopEnd : Z
}.

(** [note.position = nextPosition; note.pitch = nextValue] *)
Definition setPositionPitch (nextPosition nextValue : Z) (n : Note) : Note :=
  mkNote (id n) nextValue nextPosition (duration n) (voice n) (source n)
         (isPlaying n) (isMasked n).

(** Where [handleNoteDrag] wants the note, for a pointer at
    [(clientX, clientY)]. *)
Definition nextNoteCell (MIN_PITCH MAX_PITCH : Z) (layout : Layout)
    (drag : DragState) (clientX clientY : Q) (ed : t) : Z * Z :=
  let deltaX := (clientX - noteDragStartX drag)%Q in
  let deltaY := (clientY - noteDragStartY drag)%Q in
  let deltaPosition := Math_floor (deltaX / sixteenthWidth layout)%Q in
  let deltaPitch := Math_floor (deltaY / noteHeight layout)%Q in
  let deltaQuantized :=
    quantizePosition ed (inject_Z deltaPosition) Math_round in
  let nextPosition :=
    clampPosition ed (noteDragStartPosition drag + deltaQuantized) in
  let nextValue :=
    clampPitch MIN_PITCH MAX_PITCH (noteDragStartPitch drag - deltaPitch) in
  (nextPosition, nextValue).

(** [handleNoteDrag(note)(e)] on the store; [engine.playNote(note)], which
    sounds the note, is outside the store. *)
Definition handleNoteDrag (MIN_PITCH MAX_PITCH : Z) (layout : Layout)
    (drag : DragState) (note : ref) (clientX clientY : Q) (ed : t) : t :=
  let '(nextPosition, nextValue) :=
    nextNoteCell MIN_PITCH MAX_PITCH layout drag clientX clientY ed in
  match heap ed !! note with
  | Some n =>
      if negb (bool_decide (nextPosition = position n)) ||
         negb (bool_decide (nextValue = pitch n))
      then with_heap
             (<[note := setPositionPitch nextPosition nextValue n]> (heap ed))
             ed
      else ed
  | None => ed
  end.

Definition handleLoopStartDrag (layout : Layout) (drag : DragState)
    (clientX : Q) (ed : t) (engine : Engine) : Engine :=
  let deltaX := (clientX - loopStartDragStartX drag)%Q in
  let deltaPosition := Math_floor (deltaX / sixteenthWidth layout)%Q in
  let deltaQuantized :=
    quantizePosition ed (inject_Z deltaPosition) Math_round in
  let nextPosition :=
    clampLoopPosition ed (loopStartDragStartPosition drag + deltaQuantized) in
  if negb (bool_decide (nextPosition = loopStart engine)) &&
     (nextPosition <? loopEnd engine)
  then mkEngine nextPosition (loopEnd engine)
  else engine.

Definition handleLoopEndDrag (layout : Layout) (drag : DragState)
    (clientX : Q) (ed : t) (engine : Engine) : Engine :=
  let deltaX := (clientX - loopEndDragStartX drag)%Q in
  let deltaPosition := Math_floor (deltaX / sixteenthWidth layout)%Q in
  let deltaQuantized :=
    quantizePosition ed (inject_Z deltaPosition) Math_round in
  let nextPosition :=
    clampLoopPosition ed (loopEndDragStartPosition drag + deltaQuantized) in
  if negb (bool_decide (nextPosition = loopEnd engine)) &&
     (nextPosition >? loopStart engine)
  then mkEngine (loopStart engine) nextPosition
  else engine.

(** The rectangle that the [mouseUp] closure of [handleMaskToolMouseDown]
    computes from the two corners of the drag, [maskToolDragStartXY] and
    [maskToolDragXY]: the position range and the pitch range. *)
Definition maskToolRanges (MAX_PITCH : Z) (layout : Layout)
    (aXY bXY : Q * Q) (ed : t) : (Z * Z) * (Z * Z) :=
  let '(aX, aY) := aXY in
  let '(bX, bY) := bXY in
  let startX := if Qle_bool aX bX then aX else bX in
  let startY := if Qle_bool aY bY then aY else bY in
  let endX := if negb (Qle_bool aX bX) then aX else bX in
  let endY := if negb (Qle_bool aY bY) then aY else bY in
  let positionRange :=
    (quantizePosition ed (startX / sixteenthWidth layout)%Q Math_floor,
     quantizePosition ed (endX / sixteenthWidth layout)%Q Math_ceil) in
  let valueRange :=
    (MAX_PITCH - Math_floor (endY / noteHeight layout)%Q,
     MAX_PITCH - Math_floor (startY / noteHeight layout)%Q) in
  (positionRange, valueRange).

(** What that closure does to the editor; the rest of it resets the drag
    state of the tool. *)
Definition maskToolMouseUp (MAX_PITCH : Z) (layout : Layout)
    (aXY bXY : Q * Q) (ed : t) : result t :=
  let '(positionRange, valueRange) :=
    maskToolRanges MAX_PITCH layout aXY bXY ed in
  maskNotes positionRange valueRange ed.

End Interactions.

(** ** The flag-toggling editor (src/core/editor.ts) *)

Module FlagEditor.

(** Modelled from the spec: the fields of the [Note] class this editor
    uses ([value] is the pitch); the class is not among the sources. *)
Record Note : Type := mkNote {
  value : Z;
  position : Z;
  duration : Z;
  voice : Z;
  source : Source;
  isPlaying : bool;
  isMasked : bool
}.

(** The key [`${pitch}:${position}`] as the pair it renders. *)
Definition Key : Type := (Z * Z)%type.
Definition makeNoteKey (pitch0 position0 : Z) : Key := (pitch0, position0).

Record t : Type := mkEditor {
  heap : gmap ref Note;
  userNotesMap : list (Key * ref);
  agentNotesMap : list (Key * ref);
  currentlySelectedNotes : list ref;
  currentlyPlayingNotes : list ref
}.

Definition with_heap (h : gmap ref Note) (ed : t) : t :=
  mkEditor h (userNotesMap ed) (agentNotesMap ed)
    (currentlySelectedNotes ed) (currentlyPlayingNotes ed).

Definition userNotes (ed : t) : list ref := (userNotesMap ed).*2.
Definition agentNotes (ed : t) : list ref := (agentNotesMap ed).*2.
Definition allNotes (ed : t) : list ref := userNotes ed ++ agentNotes ed.

Definition overlaps (n : Note) (positionRange valueRange : Z * Z) : bool :=
  let '(startPosition, endPosition) := positionRange in
  let '(startValue, endValue) := valueRange in
  if (value n <? startValue) || (value n >? endValue) then false
  else if (position n >=? startPosition) && (position n <? endPosition)
  then true
  else if (position n <? startPosition) &&
          (position n + duration n >? startPosition)
  then true
  else false.

(** [note.isMasked = !note.isMasked] *)
Definition toggleMasked (n : Note) : Note :=
  mkNote (value n) (position n) (duration n) (voice n) (source n)
         (isPlaying n) (negb (isMasked n)).

(** One turn of the loop of [maskNotes]. *)
Definition maskOne (positionRange valueRange : Z * Z) (ed : t) (note : ref)
  : t :=
  match heap ed !! note with
  | Some n =>
      if overlaps n positionRange valueRange
      then with_heap (<[note := toggleMasked n]> (heap ed)) ed
      else ed
  | None => ed
  end.

Definition maskNotes (positionRange valueRange : Z * Z) (ed : t) : t :=
  foldl (maskOne positionRange valueRange) ed
        (userNotes ed ++ agentNotes ed).

(** *** Notes by cell, playback and drag conflicts *)

Definition with_userNotesMap (m : list (Key * ref)) (ed : t) : t :=
  mkEditor (heap ed) m (agentNotesMap ed)
    (currentlySelectedNotes ed) (currentlyPlayingNotes ed).

Definition with_agentNotesMap (m : list (Key * ref)) (ed : t) : t :=
  mkEditor (heap ed) (userNotesMap ed) m
    (currentlySelectedNotes ed) (currentlyPlayingNotes ed).

Definition with_selected (s : list ref) (ed : t) : t :=
  mkEditor (heap ed) (userNotesMap ed) (agentNotesMap ed)
    s (currentlyPlayingNotes ed).

Definition with_playing (s : list ref) (ed : t) : t :=
  mkEditor (heap ed) (userNotesMap ed) (agentNotesMap ed)
    (currentlySelectedNotes ed) s.

(** [Map] operations on the maps keyed by cell. *)
Fixpoint keyGet (k : Key) (m : list (Key * ref)) : option ref :=
  match m with
  | [] => None
  | (k', v) :: m' => if decide (k' = k) then Some v else keyGet k m'
  end.

Definition keyHas (k : Key) (m : list (Key * ref)) : bool :=
  bool_decide (k ∈ m.*1).

Definition keySet (k : Key) (v : ref) (m : list (Key * ref))
  : list (Key * ref) :=
  if keyHas k m
  then (fun kv : Key * ref => if decide (kv.1 = k) then (k, v) else kv) <$> m
  else m ++ [(k, v)].

Definition keyDelete (k : Key) (m : list (Key * ref)) : list (Key * ref) :=
  filter (fun kv : Key * ref => kv.1 ≠ k) m.

Definition setPlayingFlag (b : bool) (n : Note) : Note :=
  mkNote (value n) (position n) (duration n) (voice n) (source n)
         b (isMasked n).

Definition setCurrentlyPlaying (note : ref) (ed : t) : t :=
  with_playing (JsSet.add note (currentlyPlayingNotes ed))
    (with_heap (alter (setPlayingFlag true) note (heap ed)) ed).

Definition clearPlayingNotes (ed : t) : t :=
  foldl (fun e note =>
           with_heap (alter (setPlayingFlag false) note (heap e)) e)
    (with_playing [] ed) (allNotes ed).

(** One turn of the loop that clears the notes the playhead has passed. *)
Definition clearIfPassed (position0 : Z) (ed : t) (playingNote : ref) : t :=
  match heap ed !! playingNote with
  | Some n =>
      if bool_decide (position n + duration n <= position0)
      then with_playing (JsSet.delete playingNote (currentlyPlayingNotes ed))
             (with_heap
                (alter (setPlayingFlag false) playingNote (heap ed)) ed)
      else ed
  | None => ed
  end.

Definition setNotePlaying (pitch0 position0 : Z) (ed : t) : t :=
  let key := makeNoteKey pitch0 position0 in
  let userNote := keyGet key (userNotesMap ed) in
  let agentNote := keyGet key (agentNotesMap ed) in
  let ed :=
    match userNote with
    | Some r => setCurrentlyPlaying r ed
    | None => ed
    end in
  let ed :=
    match agentNote with
    | Some r => setCurrentlyPlaying r ed
    | None => ed
    end in
  foldl (clearIfPassed position0) ed (currentlyPlayingNotes ed).

Definition overlapsWithUserNote (pitch0 position0 : Z) (ed : t) : bool :=
  keyHas (makeNoteKey pitch0 position0) (userNotesMap ed).

Definition addNote (note : ref) (ed : t) : t :=
  match heap ed !! note with
  | Some n =>
      let key := makeNoteKey (value n) (position n) in
      with_selected [note]
        (with_userNotesMap (keySet key note (userNotesMap ed)) ed)
  | None => ed
  end.

Definition clearAgentNotes (ed : t) : t := with_agentNotesMap [] ed.

(** One turn of the loop of [endNoteDrag]. *)
Definition resolveConflict (note : ref) (ed : t) (other : ref) : t :=
  match heap ed !! other, heap ed !! note with
  | Some o, Some n =>
      if bool_decide (position o = position n) &&
         bool_decide (value o = value n)
      then
        let key := makeNoteKey (value o) (position o) in
        with_userNotesMap (keyDelete key (userNotesMap ed)) ed
      else ed
  | _, _ => ed
  end.

Definition endNoteDrag (note : ref) (ed : t) : t :=
  foldl (resolveConflict note) ed (userNotes ed).

End FlagEditor.

(** * Properties *)

(** The editor right after construction when [DEFAULT_NOTES] is empty:
    no notes, four empty masks, [quantizeStep = 2], no transaction open. *)
Definition blank (total : Z) : Editor.t :=
  Editor.mkEditor ∅ [] [] total 2 [[]; []; []; []] [] []
    (Editor.mkUndoManager false [] [] []).

(** ** Geometry *)

Section geometry.
Import Editor Interactions.

Definition rounding_mode (fn : Q -> Z) : Prop :=
  fn = Math_round \/ fn = Math_floor \/ fn = Math_ceil.

Lemma Math_round_integer (q : Z) : Math_round (inject_Z q) = q.
Proof.
  unfold Math_round, Qfloor, Qplus, inject_Z; simpl.
  symmetry; apply (Z.div_unique_pos _ 2 q 1); lia.
Qed.

Lemma rounding_mode_integer fn (q : Z) :
  rounding_mode fn -> fn (inject_Z q) = q.
Proof.
  intros [-> | [-> | ->]].
  - apply Math_round_integer.
  - apply Qfloor_Z.
  - apply Qceiling_Z.
Qed.

Lemma rounding_mode_proper fn (a b : Q) :
  rounding_mode fn -> (a == b)%Q -> fn a = fn b.
Proof.
  intros [-> | [-> | ->]] Hab; unfold Math_round, Math_floor, Math_ceil.
  - apply Qfloor_comp. now rewrite Hab.
  - now apply Qfloor_comp.
  - now apply Qceiling_comp.
Qed.

Lemma multiple_over_step (q s : Z) :
  s <> 0 -> (inject_Z (q * s) / inject_Z s == inject_Z q)%Q.
Proof.
  intros Hs. rewrite inject_Z_mult. field.
  intros H. apply Hs. now apply (inject_Z_injective s 0).
Qed.

(** A multiple of the step is a fixed point of every rounding mode. *)
Lemma quantizePosition_multiple ed fn (q : Z) :
  quantizeStep ed <> 0 -> rounding_mode fn ->
  quantizePosition ed (inject_Z (q * quantizeStep ed)) fn
  = q * quantizeStep ed.
Proof.
  intros Hs Hfn. unfold quantizePosition. f_equal.
  rewrite (rounding_mode_proper fn _ (inject_Z q) Hfn).
  - now apply rounding_mode_integer.
  - now apply multiple_over_step.
Qed.

Lemma baseClamp_between (p lo hi : Z) :
  lo <= hi -> lo <= Lodash.baseClamp p (Some lo) (Some hi) <= hi.
Proof.
  intros Hle. unfold Lodash.baseClamp.
  destruct (Z.leb_spec p hi);
    [destruct (Z.geb_spec p lo) | destruct (Z.geb_spec hi lo)]; lia.
Qed.

Lemma clampPitch_in_range (MIN_PITCH MAX_PITCH p : Z) :
  MIN_PITCH <= MAX_PITCH ->
  MIN_PITCH <= clampPitch MIN_PITCH MAX_PITCH p <= MAX_PITCH.
Proof. apply baseClamp_between. Qed.

Lemma clampLoopPosition_in_range ed (p : Z) :
  0 <= totalSixteenths ed ->
  0 <= clampLoopPosition ed p <= totalSixteenths ed.
Proof. apply baseClamp_between. Qed.

(** With two arguments [_.clamp] has no lower bound. *)
Lemma clampPosition_min ed (p : Z) :
  clampPosition ed p = Z.min p (totalSixteenths ed - 1).
Proof.
  unfold clampPosition, Lodash.clamp, Lodash.baseClamp.
  destruct (Z.leb_spec p (totalSixteenths ed - 1)); lia.
Qed.

End geometry.

(** C9. Quantization is idempotent: for every integer [x], every positive
    step and each of the rounding modes nearest, floor and ceil, quantizing
    the quantized value again gives the same value. *)
Theorem quantizePosition_idempotent (ed : Editor.t) (x : Z) (fn : Q -> Z) :
  0 < Editor.quantizeStep ed ->
  rounding_mode fn ->
  Interactions.quantizePosition ed
    (inject_Z (Interactions.quantizePosition ed (inject_Z x) fn)) fn
  = Interactions.quantizePosition ed (inject_Z x) fn.
Proof.
  intros Hs Hfn.
  unfold Interactions.quantizePosition at 2 3.
  apply quantizePosition_multiple; [lia | exact Hfn].
Qed.

Lemma quantizePosition_idempotent_witness :
  Interactions.quantizePosition (blank 32)
    (inject_Z (Interactions.quantizePosition (blank 32) (inject_Z 7)
                 Interactions.Math_round)) Interactions.Math_round
  = Interactions.quantizePosition (blank 32) (inject_Z 7)
      Interactions.Math_round.
Proof.
  apply (quantizePosition_idempotent (blank 32) 7 Interactions.Math_round).
  - simpl. lia.
  - left. reflexivity.
Defined.

(** C7, the part that fails. [clampPosition] is called with two arguments,
    so only the upper bound applies: at [-1] on a timeline of 32 steps it
    returns [-1], which is outside [0, totalSixteenths - 1]. *)
Theorem clampPosition_negative_escapes :
  Interactions.clampPosition (blank 32) (-1) = -1 /\
  ~ (0 <= Interactions.clampPosition (blank 32) (-1)
       <= Editor.totalSixteenths (blank 32) - 1).
Proof.
  split.
  - reflexivity.
  - rewrite clampPosition_min. simpl. lia.
Qed.


(** ** The flag-toggling editor *)

Section flag_editor.
Import FlagEditor.
Variables positionRange valueRange : Z * Z.

(** What one call does to the object behind one reference. *)
Definition flip_if_selected (n : Note) : Note :=
  if overlaps n positionRange valueRange then toggleMasked n else n.

Definition flip_all (l : list ref) (h : gmap ref Note) : gmap ref Note :=
  foldl (fun h r => alter flip_if_selected r h) h l.

Lemma overlaps_toggleMasked (n : Note) :
  overlaps (toggleMasked n) positionRange valueRange
  = overlaps n positionRange valueRange.
Proof. reflexivity. Qed.

Lemma flip_if_selected_twice (n : Note) :
  flip_if_selected (flip_if_selected n) = n.
Proof.
  unfold flip_if_selected.
  destruct (overlaps n positionRange valueRange) eqn:Hsel.
  - rewrite overlaps_toggleMasked, Hsel.
    destruct n as [v p d vo s pl m]; unfold toggleMasked; simpl.
    now rewrite negb_involutive.
  - now rewrite Hsel.
Qed.

Lemma maskOne_alter (ed : t) (note : ref) :
  maskOne positionRange valueRange ed note
  = with_heap (alter flip_if_selected note (heap ed)) ed.
Proof.
  unfold maskOne, with_heap.
  destruct (heap ed !! note) as [n|] eqn:Hn.
  - assert (Hflip : alter flip_if_selected note (heap ed)
                    = <[note := flip_if_selected n]> (heap ed)).
    { rewrite <- (insert_id (heap ed) note n Hn) at 1.
      apply alter_insert_eq. }
    rewrite Hflip. unfold flip_if_selected.
    destruct (overlaps n positionRange valueRange).
    + reflexivity.
    + rewrite (insert_id _ _ _ Hn). now destruct ed.
  - rewrite (alter_id' _ _ _ Hn). now destruct ed.
Qed.

Lemma maskNotes_flip_all (ed : t) :
  maskNotes positionRange valueRange ed
  = with_heap (flip_all (allNotes ed) (heap ed)) ed.
Proof.
  unfold maskNotes, allNotes.
  generalize (userNotes ed ++ agentNotes ed) as l.
  assert (Hgen : forall l ed0 h,
    foldl (maskOne positionRange valueRange) (with_heap h ed0) l
    = with_heap (flip_all l h) ed0).
  { induction l as [|r l IH]; intros ed0 h; simpl.
    - reflexivity.
    - rewrite maskOne_alter. simpl. apply (IH ed0). }
  intros l. rewrite <- (Hgen l ed (heap ed)). now destruct ed.
Qed.

Lemma alter_flip_twice (r : ref) (h : gmap ref Note) :
  alter flip_if_selected r (alter flip_if_selected r h) = h.
Proof.
  rewrite alter_alter_eq. apply alter_id.
  intros n _. apply flip_if_selected_twice.
Qed.

Lemma flip_all_alter (l : list ref) (r : ref) (h : gmap ref Note) :
  flip_all l (alter flip_if_selected r h)
  = alter flip_if_selected r (flip_all l h).
Proof.
  revert h. induction l as [|a l IH]; intros h; simpl.
  - reflexivity.
  - rewrite <- IH. f_equal.
    destruct (decide (a = r)) as [->|Hne].
    + reflexivity.
    + now apply alter_alter_ne.
Qed.

Lemma flip_all_twice (l : list ref) (h : gmap ref Note) :
  flip_all l (flip_all l h) = h.
Proof.
  revert h. induction l as [|a l IH]; intros h; simpl.
  - reflexivity.
  - rewrite flip_all_alter, IH. apply alter_flip_twice.
Qed.

End flag_editor.

(** C10. In the flag-toggling editor [maskNotes] is an involution: two
    calls in a row with the same ranges give back the editor as it was, so
    every note has its [isMasked] flag of before the first call and no other
    attribute of any note has changed. *)
Theorem maskNotes_involution (positionRange valueRange : Z * Z)
    (ed : FlagEditor.t) :
  FlagEditor.maskNotes positionRange valueRange
    (FlagEditor.maskNotes positionRange valueRange ed) = ed.
Proof.
  rewrite (maskNotes_flip_all _ _ ed).
  rewrite maskNotes_flip_all. simpl.
  unfold FlagEditor.allNotes, FlagEditor.userNotes, FlagEditor.agentNotes.
  simpl. rewrite flip_all_twice. now destruct ed.
Qed.

(** ** Removing a note *)

Section remove_note.
Import Editor.

(** The internal method does delete the entry keyed by the note's id and
    nothing else. *)
Lemma _removeNote_deletes (note : ref) (n : Note) (ed : t) :
  heap ed !! note = Some n ->
  notesMap (_removeNote note ed) = JsMap.delete (id n) (notesMap ed) /\
  heap (_removeNote note ed) = heap ed /\
  tempNotesMap (_removeNote note ed) = tempNotesMap ed.
Proof. intros Hn. unfold _removeNote. now rewrite Hn. Qed.

Lemma JsMap_get_delete_ne {V} (k k' : Z) (m : JsMap.t V) :
  k' <> k -> JsMap.get k' (JsMap.delete k m) = JsMap.get k' m.
Proof.
  intros Hne. unfold JsMap.delete.
  induction m as [|[k0 v] m IH]; [reflexivity|].
  rewrite filter_cons; simpl.
  destruct (decide (k0 ≠ k)) as [Hk|Hk]; simpl.
  - now rewrite IH.
  - destruct (decide (k0 = k')) as [->|_]; [|exact IH].
    exfalso. apply Hk. exact Hne.
Qed.

Lemma JsMap_get_delete_eq {V} (k : Z) (m : JsMap.t V) :
  JsMap.get k (JsMap.delete k m) = None.
Proof.
  unfold JsMap.delete.
  induction m as [|[k0 v] m IH]; [reflexivity|].
  rewrite filter_cons; simpl.
  destruct (decide (k0 ≠ k)) as [Hk|Hk]; simpl; [|exact IH].
  destruct (decide (k0 = k)); [contradiction | exact IH].
Qed.

End remove_note.

(** C2, as the code behaves. The public [removeNote] calls itself instead of
    [_removeNote]: whatever depth the call stack allows, the call ends in a
    [RangeError] and never returns a store, so nothing is deleted from the
    persistent set. *)
Theorem removeNote_never_returns (fuel : nat) (note : ref) (ed : Editor.t) :
  Editor.removeNote fuel note ed = Err RangeError.
Proof.
  revert ed. induction fuel as [|fuel IH]; intros ed; simpl.
  - reflexivity.
  - unfold Editor.undoable, Editor.beginUndoable.
    destruct (Editor.transactionOpen (Editor.undo ed)).
    + apply IH.
    + simpl. now rewrite IH.
Qed.

(** ** Playback *)

Lemma setNotePlaying_miss (pitch0 position0 : Z) (ed : Editor.t) :
  Editor.getNoteByPitchPosition pitch0 position0 ed = None ->
  Editor.setNotePlaying pitch0 position0 ed = Err TypeError.
Proof. intros Hmiss. unfold Editor.setNotePlaying. now rewrite Hmiss. Qed.

(** C3, as the code behaves. On a store with no note at all,
    [setNotePlaying(60, 0)] finds nothing and then reads [note.id] of
    [undefined]: it throws a [TypeError] instead of doing nothing. *)
Theorem setNotePlaying_missing_note_throws :
  Editor.getNoteByPitchPosition 60 0 (blank 32) = None /\
  Editor.setNotePlaying 60 0 (blank 32) = Err TypeError.
Proof. split; reflexivity. Qed.

(** ** Dragging *)

(** Two user notes in the soprano voice; the first has been dragged from
    step 0 onto the cell of the second, inside the transaction that
    [startNoteDrag] opened. *)
Definition noteX : Note := mkNote 1 60 4 2 SOPRANO USER false false.
Definition noteY : Note := mkNote 2 60 4 2 SOPRANO USER false false.

Definition dragged_onto : Editor.t :=
  Editor.mkEditor (<[1%positive := noteX]> (<[2%positive := noteY]> ∅))
    [(1, 1%positive); (2, 2%positive)] [] 32 2 [[]; []; []; []] [] []
    (Editor.mkUndoManager true
       [mkNote 1 60 0 2 SOPRANO USER false false; noteY] [] []).

Section drag.
Import Editor.

Lemma resolveConflict_heap (note other : ref) (ed : t) :
  heap (resolveConflict note ed other) = heap ed.
Proof.
  unfold resolveConflict.
  destruct (decide (other = note)); [reflexivity|].
  destruct (heap ed !! other), (heap ed !! note); try reflexivity.
  now destruct (_ && _).
Qed.

Lemma resolveConflict_fold_heap (note : ref) (l : list ref) (ed : t) :
  heap (foldl (resolveConflict note) ed l) = heap ed.
Proof.
  revert ed. induction l as [|o l IH]; intros ed; simpl; [reflexivity|].
  now rewrite IH, resolveConflict_heap.
Qed.

Lemma JsMap_delete_idemp {V} (k : Z) (m : JsMap.t V) :
  JsMap.delete k (JsMap.delete k m) = JsMap.delete k m.
Proof.
  unfold JsMap.delete.
  induction m as [|[k0 v] m IH]; [reflexivity|].
  rewrite filter_cons; simpl.
  destruct (decide (k0 ≠ k)) as [Hk|Hk]; [|exact IH].
  rewrite filter_cons; simpl.
  destruct (decide (k0 ≠ k)); [|contradiction]. now rewrite IH.
Qed.

(** Whenever some other note sits on the cell of [note], the loop of
    [endNoteDrag] deletes the entry of [note] itself and no other entry. *)
Lemma endNoteDrag_loop (note : ref) (n : Note) (l : list ref) (ed : t) :
  heap ed !! note = Some n ->
  let conflict :=
    existsb (fun other =>
      negb (bool_decide (other = note)) &&
      holds (heap ed)
        (fun o => bool_decide (position o = position n) &&
                  bool_decide (pitch o = pitch n)) other) l in
  notesMap (foldl (resolveConflict note) ed l)
  = if conflict then JsMap.delete (id n) (notesMap ed) else notesMap ed.
Proof.
  intros Hn. simpl.
  assert (Hgen : forall l m,
    (notesMap (foldl (resolveConflict note) (with_notesMap m ed) l)
     = if existsb (fun other =>
            negb (bool_decide (other = note)) &&
            holds (heap ed)
              (fun o => bool_decide (position o = position n) &&
                        bool_decide (pitch o = pitch n)) other) l
       then JsMap.delete (id n) m else m) /\
    (notesMap (foldl (resolveConflict note)
                 (with_notesMap (JsMap.delete (id n) m) ed) l)
     = JsMap.delete (id n) m)).
  { clear l. induction l as [|o l IH]; intros m; simpl.
    - split; reflexivity.
    - unfold resolveConflict at 2 4; simpl. unfold holds.
      destruct (decide (o = note)) as [->|Hne].
      + rewrite bool_decide_eq_true_2 by reflexivity. simpl. apply IH.
      + rewrite bool_decide_eq_false_2 by exact Hne. simpl.
        rewrite Hn.
        destruct (heap ed !! o) as [on|]; simpl; [|apply IH].
        destruct (_ && _); simpl.
        * unfold with_notesMap; simpl. rewrite JsMap_delete_idemp.
          split; apply IH.
        * apply IH. }
  destruct (Hgen l (notesMap ed)) as [H _].
  replace (with_notesMap (notesMap ed) ed) with ed in H by now destruct ed.
  exact H.
Qed.

End drag.

(** C1, as the code behaves. With X dragged onto the cell of Y,
    [endNoteDrag(X)] deletes the entry of X ([notesMap.delete(note.id)])
    and leaves Y in the persistent set: the opposite of what is claimed. *)
Theorem endNoteDrag_removes_dragged_note :
  exists ed',
    Editor.endNoteDrag 1%positive dragged_onto = Ok ed' /\
    Editor.notesMap ed' = [(2, 2%positive)] /\
    JsMap.get (id noteX) (Editor.notesMap ed') = None /\
    JsMap.get (id noteY) (Editor.notesMap ed') = Some 2%positive.
Proof. eexists. repeat split; vm_compute; reflexivity. Qed.

(** ** Sets of step indices *)

Section js_set.
Context {A : Type} `{EqDecision A}.
Implicit Types (s l : list A) (x y : A).

Lemma JsSet_elem_of_add x y s : y ∈ JsSet.add x s <-> y = x \/ y ∈ s.
Proof.
  unfold JsSet.add. destruct (decide (x ∈ s)) as [Hin|Hout].
  - split; [auto | intros [->|]; auto].
  - rewrite elem_of_app, list_elem_of_singleton. tauto.
Qed.

Lemma JsSet_NoDup_add x s : NoDup s -> NoDup (JsSet.add x s).
Proof.
  intros Hs. unfold JsSet.add. destruct (decide (x ∈ s)) as [Hin|Hout].
  - exact Hs.
  - apply NoDup_app. repeat split.
    + exact Hs.
    + intros z Hz Hx. apply list_elem_of_singleton in Hx. now subst.
    + apply NoDup_singleton.
Qed.

Lemma JsSet_elem_of_delete x y s : y ∈ JsSet.delete x s <-> y <> x /\ y ∈ s.
Proof. unfold JsSet.delete. rewrite list_elem_of_filter. tauto. Qed.

Lemma JsSet_NoDup_delete x s : NoDup s -> NoDup (JsSet.delete x s).
Proof. apply NoDup_filter. Qed.

Lemma JsSet_fold_add l s y :
  y ∈ foldl (fun s x => JsSet.add x s) s l <-> y ∈ s \/ y ∈ l.
Proof.
  revert s. induction l as [|x l IH]; intros s; simpl.
  - rewrite elem_of_nil. tauto.
  - rewrite IH, JsSet_elem_of_add, elem_of_cons. tauto.
Qed.

Lemma JsSet_fold_add_NoDup l s :
  NoDup s -> NoDup (foldl (fun s x => JsSet.add x s) s l).
Proof.
  revert s. induction l as [|x l IH]; intros s Hs; simpl.
  - exact Hs.
  - apply IH. now apply JsSet_NoDup_add.
Qed.

Lemma JsSet_of_list_elem_of l y : y ∈ JsSet.of_list l <-> y ∈ l.
Proof.
  unfold JsSet.of_list. rewrite JsSet_fold_add, elem_of_nil. tauto.
Qed.

Lemma JsSet_of_list_NoDup l : NoDup (JsSet.of_list l).
Proof. apply JsSet_fold_add_NoDup. apply NoDup_nil_2. Qed.

Lemma JsSet_fold_delete l s y :
  y ∈ foldl (fun s x => JsSet.delete x s) s l <-> y ∈ s /\ y ∉ l.
Proof.
  revert s. induction l as [|x l IH]; intros s; simpl.
  - split; [intros Hy; split; [exact Hy | apply not_elem_of_nil] | tauto].
  - rewrite IH, JsSet_elem_of_delete, not_elem_of_cons. tauto.
Qed.

Lemma JsSet_fold_delete_NoDup l s :
  NoDup s -> NoDup (foldl (fun s x => JsSet.delete x s) s l).
Proof.
  revert s. induction l as [|x l IH]; intros s Hs; simpl.
  - exact Hs.
  - apply IH. now apply JsSet_NoDup_delete.
Qed.

End js_set.

(** An ascending sequence of distinct integers. *)
Definition strictly_ascending (l : list Z) : Prop := StronglySorted Z.lt l.

Lemma sort_ascending_elem_of (l : list Z) (i : Z) :
  i ∈ sort_ascending l <-> i ∈ l.
Proof. unfold sort_ascending. now rewrite merge_sort_Permutation. Qed.

Lemma sort_ascending_NoDup (l : list Z) :
  NoDup l -> NoDup (sort_ascending l).
Proof. unfold sort_ascending. now rewrite merge_sort_Permutation. Qed.

Lemma le_sorted_NoDup_strict (l : list Z) :
  StronglySorted Z.le l -> NoDup l -> strictly_ascending l.
Proof.
  induction 1 as [|x l Hl IH Hx]; intros Hnd.
  - constructor.
  - apply NoDup_cons in Hnd as [Hx' Hnd]. constructor.
    + now apply IH.
    + apply Forall_forall. intros y Hy.
      pose proof (proj1 (Forall_forall _ _) Hx y Hy) as Hle.
      assert (x <> y) by (intros ->; contradiction). lia.
Qed.

Lemma sort_ascending_strict (l : list Z) :
  NoDup l -> strictly_ascending (sort_ascending l).
Proof.
  intros Hnd. apply le_sorted_NoDup_strict.
  - unfold sort_ascending. apply StronglySorted_merge_sort; apply _.
  - now apply sort_ascending_NoDup.
Qed.

Lemma strictly_ascending_NoDup (l : list Z) :
  strictly_ascending l -> NoDup l.
Proof.
  induction 1 as [|x l Hl IH Hx].
  - apply NoDup_nil_2.
  - apply NoDup_cons. split; [|exact IH].
    intros Hin. pose proof (proj1 (Forall_forall _ _) Hx x Hin). lia.
Qed.

(** Two ascending sequences with the same members are the same sequence. *)
Lemma strictly_ascending_unique (l1 l2 : list Z) :
  strictly_ascending l1 -> strictly_ascending l2 ->
  (forall i, i ∈ l1 <-> i ∈ l2) -> l1 = l2.
Proof.
  intros H1 H2 Hmem.
  apply (StronglySorted_unique_strong Z.lt); [lia | exact H1 | exact H2 |].
  apply NoDup_Permutation;
    [now apply strictly_ascending_NoDup | now apply strictly_ascending_NoDup
    | exact Hmem].
Qed.

(** ** Generation masks *)

Section masks.
Import Editor.

Lemma arraySet_lookup_eq (i : nat) (x : list Z) (a : list (list Z)) :
  default [] (arraySet i x a !! i) = x.
Proof.
  unfold arraySet. destruct (decide (i < length a)%nat) as [Hlt|Hge].
  - now rewrite list_lookup_insert_eq.
  - rewrite app_assoc.
    rewrite list_lookup_middle; [reflexivity|].
    rewrite length_app, length_replicate. lia.
Qed.

Lemma arraySet_lookup_ne (i j : nat) (x : list Z) (a : list (list Z)) :
  i <> j -> default [] (arraySet i x a !! j) = default [] (a !! j).
Proof.
  intros Hne. unfold arraySet.
  destruct (decide (i < length a)%nat) as [Hlt|Hge].
  - now rewrite list_lookup_insert_ne.
  - destruct (decide (j < length a)%nat) as [Hj|Hj].
    + now rewrite lookup_app_l.
    + rewrite (lookup_ge_None_2 a j) by lia.
      rewrite lookup_app_r by lia.
      destruct (decide (j - length a < i - length a)%nat) as [Hin|Hout].
      * rewrite lookup_app_l by (rewrite length_replicate; lia).
        now rewrite lookup_replicate_2.
      * rewrite lookup_app_r by (rewrite length_replicate; lia).
        rewrite length_replicate.
        destruct (j - length a - (i - length a))%nat as [|k] eqn:Hk;
          [lia | reflexivity].
Qed.


Lemma maskAt_addMask (v : nat) (m : list Z) (ed : t) (i : Z) :
  i ∈ maskAt v (addMask v m ed) <-> i ∈ maskAt v ed \/ i ∈ m.
Proof.
  unfold addMask, maskAt at 1; simpl. rewrite arraySet_lookup_eq.
  rewrite sort_ascending_elem_of, JsSet_fold_add, JsSet_of_list_elem_of.
  reflexivity.
Qed.

Lemma maskAt_addMask_ne (v v' : nat) (m : list Z) (ed : t) :
  v <> v' -> maskAt v' (addMask v m ed) = maskAt v' ed.
Proof.
  intros Hne. unfold addMask, maskAt; simpl. now apply arraySet_lookup_ne.
Qed.

Lemma maskAt_addMask_ascending (v : nat) (m : list Z) (ed : t) :
  strictly_ascending (maskAt v (addMask v m ed)).
Proof.
  unfold addMask, maskAt at 1; simpl. rewrite arraySet_lookup_eq.
  apply sort_ascending_strict, JsSet_fold_add_NoDup, JsSet_of_list_NoDup.
Qed.

Lemma maskAt_removeMask (v : nat) (m : list Z) (ed : t) (i : Z) :
  i ∈ maskAt v (removeMask v m ed) <-> i ∈ maskAt v ed /\ i ∉ m.
Proof.
  unfold removeMask, maskAt at 1; simpl. rewrite arraySet_lookup_eq.
  rewrite sort_ascending_elem_of, JsSet_fold_delete, JsSet_of_list_elem_of.
  reflexivity.
Qed.

Lemma maskAt_removeMask_ne (v v' : nat) (m : list Z) (ed : t) :
  v <> v' -> maskAt v' (removeMask v m ed) = maskAt v' ed.
Proof.
  intros Hne. unfold removeMask, maskAt; simpl. now apply arraySet_lookup_ne.
Qed.

Lemma maskAt_removeMask_ascending (v : nat) (m : list Z) (ed : t) :
  strictly_ascending (maskAt v (removeMask v m ed)).
Proof.
  unfold removeMask, maskAt at 1; simpl. rewrite arraySet_lookup_eq.
  apply sort_ascending_strict, JsSet_fold_delete_NoDup, JsSet_of_list_NoDup.
Qed.

(** What [addMask] followed by [removeMask] leaves, for any mask and any
    list: the indices of the mask that are not in the list. *)
Lemma maskAt_add_then_remove (v : nat) (m : list Z) (ed : t) (i : Z) :
  i ∈ maskAt v (removeMask v m (addMask v m ed))
  <-> i ∈ maskAt v ed /\ i ∉ m.
Proof. rewrite maskAt_removeMask, maskAt_addMask. tauto. Qed.

End masks.

(** The mask of voice 0 is [1; 2]. *)
Definition masked_1_2 : Editor.t :=
  Editor.with_generationMasks [[1; 2]; []; []; []] (blank 32).

(** C6 as stated fails: with the mask [1; 2] for voice 0, adding [2; 3] and
    then removing [2; 3] leaves [1]; index 2, masked at the start, is lost. *)
Lemma add_remove_mask_loses_shared_index :
  Editor.maskAt 0 masked_1_2 = [1; 2] /\
  Editor.maskAt 0
    (Editor.removeMask 0 [2; 3] (Editor.addMask 0 [2; 3] masked_1_2)) = [1] /\
  ~ (forall i,
       i ∈ Editor.maskAt 0
             (Editor.removeMask 0 [2; 3] (Editor.addMask 0 [2; 3] masked_1_2))
       <-> i ∈ Editor.maskAt 0 masked_1_2).
Proof.
  split; [reflexivity|]. split; [vm_compute; reflexivity|].
  intros Hsame. pose proof (Hsame 2) as H2.
  rewrite maskAt_add_then_remove in H2.
  assert (Hin : 2 ∈ Editor.maskAt 0 masked_1_2).
  { change (2 ∈ [1; 2]). rewrite !elem_of_cons. auto. }
  apply H2 in Hin as [_ Hout].
  apply Hout. rewrite !elem_of_cons. auto.
Qed.

(** C6, amended. When no index of the supplied list [m] is in the mask of
    voice [v], [addMask(v, m)] followed by [removeMask(v, m)] leaves for [v]
    a mask with exactly the original indices; it is the original sequence
    itself when that was ascending and duplicate-free. *)
Theorem add_then_remove_mask_restores (v : nat) (m : list Z) (ed : Editor.t) :
  (forall i, i ∈ m -> i ∉ Editor.maskAt v ed) ->
  let ed' := Editor.removeMask v m (Editor.addMask v m ed) in
  (forall i, i ∈ Editor.maskAt v ed' <-> i ∈ Editor.maskAt v ed) /\
  (strictly_ascending (Editor.maskAt v ed) ->
   Editor.maskAt v ed' = Editor.maskAt v ed).
Proof.
  intros Hdisj ed'.
  assert (Hmem : forall i,
    i ∈ Editor.maskAt v ed' <-> i ∈ Editor.maskAt v ed).
  { intros i. unfold ed'. rewrite maskAt_add_then_remove.
    split; [tauto|]. intros Hi. split; [exact Hi|].
    intros Him. now apply (Hdisj i Him). }
  split; [exact Hmem|].
  intros Hasc. apply strictly_ascending_unique; [|exact Hasc|exact Hmem].
  apply maskAt_removeMask_ascending.
Qed.

Lemma add_then_remove_mask_restores_witness :
  (forall i, i ∈ [5; 6] -> i ∉ Editor.maskAt 0 masked_1_2) /\
  Editor.maskAt 0
    (Editor.removeMask 0 [5; 6] (Editor.addMask 0 [5; 6] masked_1_2))
  = Editor.maskAt 0 masked_1_2.
Proof.
  assert (Hdisj : forall i, i ∈ [5; 6] -> i ∉ Editor.maskAt 0 masked_1_2).
  { intros i Hi Hmask. change (i ∈ [1; 2]) in Hmask.
    rewrite !elem_of_cons, elem_of_nil in Hi, Hmask. lia. }
  split; [exact Hdisj|].
  apply (add_then_remove_mask_restores 0%nat [5; 6] masked_1_2 Hdisj).
  change (strictly_ascending [1; 2]).
  repeat constructor; lia.
Defined.

(** ** Ranges and overlap *)

Ltac case_compare :=
  repeat match goal with
  | |- context [?a <? ?b] => destruct (Z.ltb_spec a b)
  | |- context [?a <=? ?b] => destruct (Z.leb_spec a b)
  end.

Lemma overlaps_true (n : Note) (ps pe v0 v1 : Z) :
  Editor.overlaps n (ps, pe) (v0, v1) = true <->
  (v0 <= pitch n <= v1) /\
  ((ps <= position n < pe) \/
   (position n < ps /\ ps < position n + duration n)).
Proof.
  unfold Editor.overlaps. rewrite !Z.gtb_ltb, !Z.geb_leb.
  case_compare; simpl; split; intros; (lia || discriminate || reflexivity).
Qed.

Lemma seq_strictly_ascending (s k : nat) : StronglySorted lt (seq s k).
Proof.
  revert s. induction k as [|k IH]; intros s; simpl; constructor.
  - apply IH.
  - apply Forall_forall. intros x Hx. apply elem_of_seq in Hx. lia.
Qed.

Lemma seqZ_strictly_ascending (m n : Z) : strictly_ascending (seqZ m n).
Proof.
  unfold seqZ. apply (StronglySorted_fmap _ lt Z.lt).
  - intros x y Hxy. lia.
  - apply seq_strictly_ascending.
Qed.

Lemma range_elem_of (a b i : Z) :
  i ∈ Lodash.range a b -> a <= i < b \/ b < i <= a.
Proof.
  unfold Lodash.range. case_compare.
  - rewrite elem_of_seqZ. lia.
  - rewrite list_elem_of_fmap. intros [j [-> Hj]].
    apply elem_of_seqZ in Hj. lia.
Qed.

Lemma range_elem_of_upwards (a b i : Z) :
  a <= b -> i ∈ Lodash.range a b <-> a <= i < b.
Proof.
  intros Hab. split.
  - intros Hi. apply range_elem_of in Hi. lia.
  - intros Hi. unfold Lodash.range. case_compare; [|lia].
    rewrite elem_of_seqZ. lia.
Qed.


(** The step range that [maskNotes] computes for a selected note is the
    intersection of the note's span with the position range, whenever the
    position range is ordered and the duration is not negative. *)
Lemma mask_range_upwards (n : Note) (ps pe v0 v1 : Z) :
  Editor.overlaps n (ps, pe) (v0, v1) = true ->
  ps <= pe -> 0 <= duration n ->
  Z.max ps (start n) <= Z.min pe (end_ n).
Proof.
  rewrite overlaps_true. unfold start, end_. lia.
Qed.

Lemma foldl_invariant {A B} (f : A -> B -> A) (I : A -> Prop)
    (l : list B) (a : A) :
  I a -> (forall a b, b ∈ l -> I a -> I (f a b)) -> I (foldl f a l).
Proof.
  revert a. induction l as [|b l IH]; intros a Ha Hstep; simpl.
  - exact Ha.
  - apply IH.
    + apply Hstep; [apply list_elem_of_here | exact Ha].
    + intros a' b' Hb'. apply Hstep. now apply list_elem_of_further.
Qed.

(** ** The invariant of the generation masks *)

Definition within_timeline (total : Z) (l : list Z) : Prop :=
  Forall (fun i => 0 <= i < total) l.







Section mask_invariant.
Import Editor Interactions.






(** The body of [maskNotes], without the transaction around it. *)
Definition maskNotesBody (positionRange pitchRange : Z * Z) (ed : t) : t :=
  foldl (maskOne positionRange) ed
    (List.filter
       (holds (heap ed) (fun n => overlaps n positionRange pitchRange))
       (allNotes ed)).

Lemma maskOne_with_undo positionRange (u : UndoManager) (ed : t) (r : ref) :
  maskOne positionRange (with_undo u ed) r
  = with_undo u (maskOne positionRange ed r).
Proof. unfold maskOne; simpl. now destruct (heap ed !! r). Qed.

Lemma maskOne_fold_with_undo positionRange (u : UndoManager) (l : list ref)
    (ed : t) :
  foldl (maskOne positionRange) (with_undo u ed) l
  = with_undo u (foldl (maskOne positionRange) ed l).
Proof.
  revert ed. induction l as [|r l IH]; intros ed; simpl; [reflexivity|].
  now rewrite maskOne_with_undo, IH.
Qed.

(** [maskNotes] always returns: the store its body computes, with the undo
    manager advanced. *)
Lemma maskNotes_returns (positionRange pitchRange : Z * Z) (ed : t) :
  exists u,
    maskNotes positionRange pitchRange ed
    = Ok (with_undo u (maskNotesBody positionRange pitchRange ed)).
Proof.
  unfold maskNotes, undoable, maskNotesBody.
  destruct (transactionOpen (undo ed)) eqn:Hopen.
  - set (ed' := foldl _ _ _). exists (undo ed'). now destruct ed'.
  - unfold beginUndoable. rewrite Hopen. simpl.
    rewrite maskOne_fold_with_undo. unfold completeUndoable; simpl.
    destruct (decide _); eexists; reflexivity.
Qed.

Lemma maskOne_heap positionRange (ed : t) (r : ref) :
  heap (maskOne positionRange ed r) = heap ed /\
  totalSixteenths (maskOne positionRange ed r) = totalSixteenths ed /\
  notesMap (maskOne positionRange ed r) = notesMap ed /\
  tempNotesMap (maskOne positionRange ed r) = tempNotesMap ed.
Proof. unfold maskOne. now destruct (heap ed !! r). Qed.

Lemma maskNotesBody_heap positionRange pitchRange (ed : t) :
  heap (maskNotesBody positionRange pitchRange ed) = heap ed /\
  totalSixteenths (maskNotesBody positionRange pitchRange ed)
  = totalSixteenths ed /\
  notesMap (maskNotesBody positionRange pitchRange ed) = notesMap ed /\
  tempNotesMap (maskNotesBody positionRange pitchRange ed) = tempNotesMap ed.
Proof.
  unfold maskNotesBody.
  apply (foldl_invariant (maskOne positionRange)
           (fun e => heap e = heap ed /\
                     totalSixteenths e = totalSixteenths ed /\
                     notesMap e = notesMap ed /\
                     tempNotesMap e = tempNotesMap ed)).
  - auto.
  - intros e r _ (H1 & H2 & H3 & H4).
    destruct (maskOne_heap positionRange e r) as (G1 & G2 & G3 & G4).
    rewrite G1, G2, G3, G4. auto.
Qed.



(** The ends that a lane drag quantizes are ordered on a proper grid. *)
Lemma maskLanePositionRange_ordered (w aX bX : Q) (ed : t) :
  (0 < w)%Q -> 0 < quantizeStep ed ->
  (maskLanePositionRange w aX bX ed).1 <= (maskLanePositionRange w aX bX ed).2.
Proof.
  intros Hw Hs. unfold maskLanePositionRange, quantizePosition.
  cbv zeta. cbn [fst snd].
  apply Z.mul_le_mono_nonneg_r; [lia|].
  unfold Math_floor, Math_ceil.
  etransitivity; [|rewrite Zle_Qle; apply Qle_floor_ceiling].
  apply Qfloor_resp_le.
  assert (Hinv : forall c : Q, (0 < c)%Q -> forall a b : Q,
            (a <= b)%Q -> (a / c <= b / c)%Q).
  { intros c Hc a b Hab. unfold Qdiv.
    apply Qmult_le_compat_r; [exact Hab|].
    apply Qlt_le_weak, Qinv_lt_0_compat, Hc. }
  apply Hinv; [change 0%Q with (inject_Z 0); rewrite <- Zlt_Qlt; exact Hs|].
  apply Hinv; [exact Hw|].
  destruct (Qle_bool aX bX) eqn:Hle; simpl.
  - now apply Qle_bool_iff.
  - apply Qlt_le_weak, Qnot_le_lt. intros Hc.
    apply Qle_bool_iff in Hc. congruence.
Qed.

End mask_invariant.


(** The same happens from the pointer: on a lane of 32 steps drawn 10
    pixels to the step, a drag from x = 300 to x = 400, past the right edge,
    masks the steps 30 to 39. *)
Lemma lane_drag_past_the_end :
  Editor.maskAt 0 (Interactions.maskLaneMouseUp 10 0 300 400 (blank 32))
  = [30; 31; 32; 33; 34; 35; 36; 37; 38; 39].
Proof. vm_compute. reflexivity. Qed.



(** ** The rectangular mask tool *)

Section mask_notes.
Import Editor.

Lemma addMask_monotone (v v' : nat) (m : list Z) (ed : t) (i : Z) :
  i ∈ maskAt v ed -> i ∈ maskAt v (addMask v' m ed).
Proof.
  intros Hi. destruct (decide (v' = v)) as [->|Hne].
  - apply maskAt_addMask. now left.
  - now rewrite maskAt_addMask_ne.
Qed.

Lemma maskOne_monotone positionRange (v : nat) (ed : t) (r : ref) (i : Z) :
  i ∈ maskAt v ed -> i ∈ maskAt v (maskOne positionRange ed r).
Proof.
  intros Hi. unfold maskOne. destruct (heap ed !! r); [|exact Hi].
  now apply addMask_monotone.
Qed.

Lemma maskOne_fold_monotone positionRange (v : nat) (l : list ref) (ed : t)
    (i : Z) :
  i ∈ maskAt v ed -> i ∈ maskAt v (foldl (maskOne positionRange) ed l).
Proof.
  revert ed. induction l as [|r l IH]; intros ed Hi; simpl; [exact Hi|].
  now apply IH, maskOne_monotone.
Qed.

(** Once the loop has passed a note, the steps its span shares with the
    position range are in the mask of its voice. *)
Lemma maskOne_fold_covers positionRange (l : list ref) (ed : t) (r : ref)
    (n : Note) (i : Z) :
  r ∈ l -> heap ed !! r = Some n ->
  Z.max positionRange.1 (start n) <= i < Z.min positionRange.2 (end_ n) ->
  i ∈ maskAt (voiceIndex (voice n)) (foldl (maskOne positionRange) ed l).
Proof.
  revert ed. induction l as [|r' l IH]; intros ed Hr Hn Hi.
  - now apply elem_of_nil in Hr.
  - simpl. apply elem_of_cons in Hr as [<-|Hr].
    + apply maskOne_fold_monotone. unfold maskOne. rewrite Hn.
      apply maskAt_addMask. right.
      apply range_elem_of_upwards; lia.
    + apply IH; [exact Hr | | exact Hi].
      destruct (maskOne_heap positionRange ed r') as [-> _]. exact Hn.
Qed.

End mask_notes.

(** The store of the scenario: one note, pitch 60, steps [0, 4), soprano. *)
Definition single_note : Editor.t :=
  Editor.mkEditor
    {[ 1%positive := mkNote 1 60 0 4 SOPRANO USER false false ]}
    [(1, 1%positive)] [] 32 2 [[]; []; []; []] [] []
    (Editor.mkUndoManager false [] [] []).

(** C5. For every note of the store that overlaps the selection (pitch
    within the pitch range, both ends included; position within
    [positionStart, positionEnd), or before [positionStart] with the span
    reaching past it), [maskNotes] returns and every step of the
    intersection of the note's [start, end) with the position range is then
    in the mask of the note's voice, while no note object and neither note
    map has changed. With the single note of the scenario,
    [maskNotes([2, 8], [60, 60])] makes the soprano mask [2; 3]. *)
Theorem maskNotes_masks_intersection :
  (forall (positionRange pitchRange : Z * Z) (ed : Editor.t) (r : ref)
          (n : Note),
     r ∈ Editor.allNotes ed ->
     Editor.heap ed !! r = Some n ->
     pitchRange.1 <= pitch n <= pitchRange.2 ->
     (positionRange.1 <= position n < positionRange.2 \/
      (position n < positionRange.1 /\
       positionRange.1 < position n + duration n)) ->
     exists ed',
       Editor.maskNotes positionRange pitchRange ed = Ok ed' /\
       (forall i,
          Z.max positionRange.1 (start n) <= i
            < Z.min positionRange.2 (end_ n) ->
          i ∈ Editor.maskAt (voiceIndex (voice n)) ed') /\
       Editor.heap ed' = Editor.heap ed /\
       Editor.notesMap ed' = Editor.notesMap ed /\
       Editor.tempNotesMap ed' = Editor.tempNotesMap ed) /\
  (exists ed',
     Editor.maskNotes (2, 8) (60, 60) single_note = Ok ed' /\
     Editor.maskAt (voiceIndex SOPRANO) ed' = [2; 3] /\
     Editor.generationMasks ed' = [[2; 3]; []; []; []] /\
     Editor.heap ed' = Editor.heap single_note).
Proof.
  split.
  - intros [ps pe] [v0 v1] ed r n Hr Hn Hpitch Hpos. simpl in *.
    destruct (maskNotes_returns (ps, pe) (v0, v1) ed) as [u Hu].
    eexists; split; [exact Hu|].
    destruct (maskNotesBody_heap (ps, pe) (v0, v1) ed) as (H1 & _ & H3 & H4).
    split; [|simpl; auto].
    intros i Hi. change (i ∈ Editor.maskAt (voiceIndex (voice n))
                           (maskNotesBody (ps, pe) (v0, v1) ed)).
    unfold maskNotesBody.
    apply (maskOne_fold_covers (ps, pe) _ ed r n i); [|exact Hn|exact Hi].
    apply list_elem_of_In, filter_In. split.
    + now apply list_elem_of_In.
    + unfold Editor.holds. rewrite Hn. apply overlaps_true. auto.
  - eexists. split; [vm_compute; reflexivity|].
    repeat split; vm_compute; reflexivity.
Qed.

Lemma maskNotes_masks_intersection_witness :
  exists ed',
    Editor.maskNotes (2, 8) (60, 60) single_note = Ok ed' /\
    (forall i, 2 <= i < 4 -> i ∈ Editor.maskAt 0 ed').
Proof.
  destruct (proj1 maskNotes_masks_intersection (2, 8) (60, 60) single_note
              1%positive (mkNote 1 60 0 4 SOPRANO USER false false))
    as (ed' & He & Hcov & _).
  - simpl. apply list_elem_of_here.
  - reflexivity.
  - simpl. lia.
  - simpl. lia.
  - exists ed'. split; [exact He|]. intros i Hi. apply Hcov. simpl.
    unfold start, end_; simpl. lia.
Defined.

(** ** Voice monophony *)


Section trim.
Import Editor.
Variables (MIN_PITCH MAX_PITCH : Z) (note : ref) (n : Note) (ed : t).
Hypothesis note_at : heap ed !! note = Some n.

(** What the loop does to an object it visits. *)
Definition truncate (o : Note) : Note :=
  if end_ o >? end_ n then moveStart (end_ n) o else o.

Lemma end_moveStart (x : Z) (o : Note) : end_ (moveStart x o) = end_ o.
Proof. unfold moveStart, end_; simpl. unfold end_. lia. Qed.

Lemma truncate_idempotent (o : Note) : truncate (truncate o) = truncate o.
Proof.
  unfold truncate. destruct (end_ o >? end_ n) eqn:Hgt.
  - rewrite end_moveStart, Hgt. unfold moveStart; simpl.
    f_equal. unfold end_; simpl. unfold end_. lia.
  - now rewrite Hgt.
Qed.

Lemma truncate_keeps (o : Note) :
  id (truncate o) = id o /\ voice (truncate o) = voice o /\
  end_ (truncate o) = end_ o.
Proof.
  unfold truncate. destruct (end_ o >? end_ n); [|auto].
  rewrite end_moveStart. auto.
Qed.


(** The state of the store in the course of the loop. *)
Definition trimming (e : t) : Prop :=
  heap e !! note = Some n /\
  (forall r, heap e !! r = heap ed !! r \/
             heap e !! r = truncate <$> heap ed !! r) /\
  (forall kr, kr ∈ notesMap e -> kr ∈ notesMap ed).

(** The loop is through with [r]. *)
Definition trimmed (e : t) (r : ref) : Prop :=
  forall o, heap ed !! r = Some o ->
    heap e !! r = Some (truncate o) /\
    (end_ o <= end_ n -> id o ∉ (notesMap e).*1).

Lemma trimOne_at (e : t) (other : ref) (o : Note) :
  heap e !! note = Some n -> heap e !! other = Some o ->
  trimOne note e other
  = if end_ o >? end_ n
    then with_heap (<[other := moveStart (end_ n) o]> (heap e)) e
    else with_notesMap (JsMap.delete (id o) (notesMap e)) e.
Proof.
  intros Hn Ho. unfold trimOne, _removeNote. now rewrite Ho, Hn.
Qed.

Lemma JsMap_delete_subset {V} (k : Z) (m : JsMap.t V) (kv : Z * V) :
  kv ∈ JsMap.delete k m -> kv ∈ m.
Proof. unfold JsMap.delete. rewrite list_elem_of_filter. tauto. Qed.

Lemma JsMap_delete_key {V} (k : Z) (m : JsMap.t V) :
  k ∉ (JsMap.delete k m).*1.
Proof.
  unfold JsMap.delete. rewrite list_elem_of_fmap.
  intros [[k' v] [-> Hin]]. apply list_elem_of_filter in Hin as [Hne _].
  now apply Hne.
Qed.

Lemma JsMap_delete_keys {V} (k k' : Z) (m : JsMap.t V) :
  k' ∉ m.*1 -> k' ∉ (JsMap.delete k m).*1.
Proof.
  intros Hout Hin. apply Hout.
  apply list_elem_of_fmap in Hin as [kv [-> Hin]].
  apply list_elem_of_fmap. exists kv. split; [reflexivity|].
  now apply JsMap_delete_subset in Hin.
Qed.

Lemma trimOne_trimming (e : t) (other : ref) :
  other <> note -> trimming e -> trimming (trimOne note e other).
Proof.
  intros Hne (Hn & Hheap & Hsub).
  destruct (heap e !! other) as [o|] eqn:Ho.
  - rewrite (trimOne_at e other o Hn Ho). unfold trimming.
    destruct (end_ o >? end_ n) eqn:Hgt; simpl.
    + split; [now rewrite lookup_insert_ne|]. split; [|exact Hsub].
      intros r. destruct (decide (other = r)) as [<-|Hr].
      * rewrite lookup_insert_eq. right.
        destruct (Hheap other) as [H|H]; rewrite Ho in H; rewrite <- H; simpl.
        -- unfold truncate. now rewrite Hgt.
        -- destruct (heap ed !! other) as [o0|] eqn:Ho0; [|discriminate].
           simpl in H. injection H as ->.
           destruct (truncate_keeps o0) as (_ & _ & He).
           rewrite He in Hgt.
           transitivity (Some (truncate (truncate o0))).
           ++ f_equal. unfold truncate at 2 3. rewrite Hgt.
              unfold truncate. now rewrite end_moveStart, Hgt.
           ++ now rewrite truncate_idempotent.
      * rewrite lookup_insert_ne by exact Hr. apply Hheap.
    + split; [exact Hn|]. split; [exact Hheap|].
      intros kr Hkr. apply Hsub. now apply JsMap_delete_subset in Hkr.
  - unfold trimOne. now rewrite Ho.
Qed.

Lemma trimOne_trimmed_here (e : t) (other : ref) :
  other <> note -> trimming e -> trimmed (trimOne note e other) other.
Proof.
  intros Hne (Hn & Hheap & Hsub) o0 Ho0.
  assert (Hcur : exists o, heap e !! other = Some o /\ truncate o = truncate o0
                           /\ id o = id o0 /\ end_ o = end_ o0).
  { destruct (Hheap other) as [H|H]; rewrite Ho0 in H.
    - exists o0. auto.
    - exists (truncate o0). split; [exact H|].
      split; [apply truncate_idempotent|].
      destruct (truncate_keeps o0) as (Hi & _ & He). auto. }
  destruct Hcur as (o & Ho & Htr & Hid & Hend).
  rewrite (trimOne_at e other o Hn Ho).
  destruct (end_ o >? end_ n) eqn:Hgt; simpl.
  - split.
    + rewrite lookup_insert_eq. f_equal. rewrite <- Htr.
      unfold truncate. now rewrite Hgt.
    + intros Hle. apply Z.gtb_lt in Hgt. lia.
  - split.
    + rewrite Ho. f_equal. rewrite <- Htr. unfold truncate. now rewrite Hgt.
    + intros _. rewrite <- Hid. apply JsMap_delete_key.
Qed.

Lemma trimOne_trimmed_later (e : t) (other r : ref) :
  other <> note -> trimming e -> trimmed e r ->
  trimmed (trimOne note e other) r.
Proof.
  intros Hne (Hn & Hheap & Hsub) Hdone o0 Ho0.
  destruct (Hdone o0 Ho0) as [Hr Hkey].
  destruct (heap e !! other) as [o|] eqn:Ho.
  - rewrite (trimOne_at e other o Hn Ho).
    destruct (end_ o >? end_ n) eqn:Hgt; simpl.
    + split; [|exact Hkey].
      destruct (decide (other = r)) as [->|Hor].
      * rewrite lookup_insert_eq. rewrite Hr in Ho. injection Ho as <-.
        f_equal. rewrite <- (truncate_idempotent o0) at 2.
        unfold truncate at 2. now rewrite Hgt.
      * now rewrite lookup_insert_ne.
    + split; [exact Hr|].
      intros Hle. now apply JsMap_delete_keys, Hkey.
  - unfold trimOne. rewrite Ho. auto.
Qed.

Lemma trim_fold (l : list ref) (e : t) :
  Forall (fun r => r <> note) l -> trimming e ->
  trimming (foldl (trimOne note) e l) /\
  (forall r, trimmed e r \/ r ∈ l -> trimmed (foldl (trimOne note) e l) r).
Proof.
  revert e. induction l as [|other l IH]; intros e Hl He; simpl.
  - split; [exact He|]. intros r [Hr|Hr]; [exact Hr|].
    now apply elem_of_nil in Hr.
  - apply Forall_cons in Hl as [Hne Hl].
    destruct (IH (trimOne note e other) Hl
                (trimOne_trimming e other Hne He)) as [Hinv Hdone].
    split; [exact Hinv|].
    intros r [Hr|Hr]; apply Hdone.
    + left. now apply trimOne_trimmed_later.
    + apply elem_of_cons in Hr as [->|Hr]; [|now right].
      left. now apply trimOne_trimmed_here.
Qed.

(** The notes that [trimOverlappingVoices] selects. *)
Definition overlappingNotes : list ref :=
  List.filter
    (fun otherNote =>
       negb (bool_decide (otherNote = note)) &&
       holds (heap ed)
         (fun o => bool_decide (voice o = voice n) &&
                   overlaps o (start n, end_ n) (MIN_PITCH, MAX_PITCH))
         otherNote)
    (allNotes ed).

Lemma trimOverlappingVoices_fold :
  trimOverlappingVoices MIN_PITCH MAX_PITCH note ed
  = foldl (trimOne note) ed overlappingNotes.
Proof. unfold trimOverlappingVoices. now rewrite note_at. Qed.

Lemma overlappingNotes_elem_of (r : ref) :
  r ∈ overlappingNotes <->
  r ∈ allNotes ed /\ r <> note /\
  exists o, heap ed !! r = Some o /\ voice o = voice n /\
            overlaps o (start n, end_ n) (MIN_PITCH, MAX_PITCH) = true.
Proof.
  unfold overlappingNotes. rewrite list_elem_of_In, filter_In.
  rewrite <- list_elem_of_In, andb_true_iff, negb_true_iff.
  rewrite bool_decide_eq_false. unfold holds.
  destruct (heap ed !! r) as [o|].
  - rewrite andb_true_iff, bool_decide_eq_true. split.
    + intros (Hin & Hne & Hv & Ho). eauto 8.
    + intros (Hin & Hne & o' & [= <-] & Hv & Ho). auto.
  - split; [intros (_ & _ & H); discriminate|].
    intros (_ & _ & o & H & _). discriminate.
Qed.

Lemma trimmed_result :
  trimming (trimOverlappingVoices MIN_PITCH MAX_PITCH note ed) /\
  (forall r, r ∈ overlappingNotes ->
             trimmed (trimOverlappingVoices MIN_PITCH MAX_PITCH note ed) r).
Proof.
  rewrite trimOverlappingVoices_fold.
  destruct (trim_fold overlappingNotes ed) as [Hinv Hdone].
  - apply Forall_forall. intros r Hr.
    now apply overlappingNotes_elem_of in Hr as (_ & Hne & _).
  - split; [exact note_at|]. split; [now left | auto].
  - split; [exact Hinv|]. intros r Hr. apply Hdone. now right.
Qed.

End trim.



(** The scenario of the specification: A over steps [0, 8) and B over
    [4, 8), both in the soprano voice. In [two_sopranos] both are
    persistent; in [soprano_and_preview] B is a preview note of the temp
    set. *)
Definition noteA : Note := mkNote 1 60 0 8 SOPRANO USER false false.
Definition noteB : Note := mkNote 2 64 4 4 SOPRANO AGENT false false.

Definition two_sopranos : Editor.t :=
  Editor.mkEditor (<[1%positive := noteA]> (<[2%positive := noteB]> ∅))
    [(1, 1%positive); (2, 2%positive)] [] 32 2 [[]; []; []; []] [] []
    (Editor.mkUndoManager false [] [] []).





(** ** Drag conflicts in general *)

Section drag_conflict.
Import Editor.

Lemma resolveConflict_fold_undo (note : ref) (l : list ref) (ed : t) :
  undo (foldl (resolveConflict note) ed l) = undo ed.
Proof.
  revert ed. induction l as [|o l IH]; intros ed; simpl; [reflexivity|].
  rewrite IH. unfold resolveConflict.
  destruct (decide (o = note)); [reflexivity|].
  destruct (heap ed !! o), (heap ed !! note); try reflexivity.
  now destruct (_ && _).
Qed.

(** Whatever the store, when another note sits on the cell of the dragged
    note, [endNoteDrag] takes the dragged note's own entry out of the
    persistent map and leaves every other entry, the conflicting note's
    included. *)
Lemma endNoteDrag_deletes_dragged (note other : ref) (n o : Note) (ed : t) :
  transactionOpen (undo ed) = true ->
  heap ed !! note = Some n -> heap ed !! other = Some o ->
  other ∈ allNotes ed -> other <> note ->
  position o = position n -> pitch o = pitch n ->
  exists ed',
    endNoteDrag note ed = Ok ed' /\
    notesMap ed' = JsMap.delete (id n) (notesMap ed) /\
    JsMap.get (id n) (notesMap ed') = None /\
    (forall k, k <> id n ->
       JsMap.get k (notesMap ed') = JsMap.get k (notesMap ed)).
Proof.
  intros Hopen Hn Ho Hin Hne Hpos Hpitch.
  assert (Hmap : notesMap (foldl (resolveConflict note) ed (allNotes ed))
                 = JsMap.delete (id n) (notesMap ed)).
  { rewrite (endNoteDrag_loop note n (allNotes ed) ed Hn).
    replace (existsb _ _) with true; [reflexivity|].
    symmetry. apply existsb_exists. exists other. split.
    - now apply list_elem_of_In.
    - unfold holds. rewrite Ho, Hpos, Hpitch.
      rewrite (bool_decide_eq_false_2 _ Hne).
      now rewrite !bool_decide_eq_true_2 by reflexivity. }
  unfold endNoteDrag, completeUndoable.
  rewrite resolveConflict_fold_undo, Hopen.
  assert (Hgoal : forall u,
    notesMap (with_undo u (foldl (resolveConflict note) ed (allNotes ed)))
    = JsMap.delete (id n) (notesMap ed)) by (intros u; exact Hmap).
  destruct (decide _); eexists; (split; [reflexivity|]);
    rewrite Hgoal; (split; [reflexivity|]);
    (split; [apply JsMap_get_delete_eq|]);
    intros k Hk; now apply JsMap_get_delete_ne.
Qed.

End drag_conflict.

(** * Further properties of the code *)

(** ** The clamps *)

Lemma baseClamp_max_min (p lo hi : Z) :
  Lodash.baseClamp p (Some lo) (Some hi) = Z.max lo (Z.min p hi).
Proof.
  unfold Lodash.baseClamp.
  destruct (Z.leb_spec p hi);
    [destruct (Z.geb_spec p lo) | destruct (Z.geb_spec hi lo)]; lia.
Qed.

(** X1. [clampPitch] keeps a pitch that is within the bounds and moves any
    other to the nearer bound. *)
Theorem clampPitch_nearest_bound (MIN_PITCH MAX_PITCH p : Z) :
  MIN_PITCH <= MAX_PITCH ->
  MIN_PITCH <= Interactions.clampPitch MIN_PITCH MAX_PITCH p <= MAX_PITCH /\
  (MIN_PITCH <= p <= MAX_PITCH ->
   Interactions.clampPitch MIN_PITCH MAX_PITCH p = p) /\
  (p < MIN_PITCH ->
   Interactions.clampPitch MIN_PITCH MAX_PITCH p = MIN_PITCH) /\
  (MAX_PITCH < p -> Interactions.clampPitch MIN_PITCH MAX_PITCH p = MAX_PITCH).
Proof.
  intros Hle.
  unfold Interactions.clampPitch, Lodash.clamp.
  rewrite baseClamp_max_min. lia.
Qed.

Lemma clampPitch_nearest_bound_witness :
  Interactions.clampPitch 36 81 90 = 81 /\
  Interactions.clampPitch 36 81 20 = 36.
Proof.
  destruct (clampPitch_nearest_bound 36 81 90 ltac:(lia)) as (_ & _ & _ & Hhi).
  destruct (clampPitch_nearest_bound 36 81 20 ltac:(lia)) as (_ & _ & Hlo & _).
  split; [apply Hhi | apply Hlo]; lia.
Defined.

(** X2. [clampLoopPosition] keeps a loop marker on [0, totalSixteenths], the
    end of the timeline included, and leaves a marker that is there alone. *)
Theorem clampLoopPosition_on_timeline (ed : Editor.t) (p : Z) :
  0 <= Editor.totalSixteenths ed ->
  0 <= Interactions.clampLoopPosition ed p <= Editor.totalSixteenths ed /\
  (0 <= p <= Editor.totalSixteenths ed ->
   Interactions.clampLoopPosition ed p = p).
Proof.
  intros Htot.
  unfold Interactions.clampLoopPosition, Lodash.clamp.
  rewrite baseClamp_max_min. lia.
Qed.

Lemma clampLoopPosition_on_timeline_witness :
  0 <= Interactions.clampLoopPosition (blank 32) 40 <= 32.
Proof.
  apply (clampLoopPosition_on_timeline (blank 32) 40). simpl. lia.
Defined.

(** X3. [clampPosition] never lets a note start at or past the end of the
    timeline, and it is the identity below it; so a position that is not
    negative ends on [0, totalSixteenths - 1]. *)
Theorem clampPosition_below_end (ed : Editor.t) (p : Z) :
  0 <= p -> 0 < Editor.totalSixteenths ed ->
  0 <= Interactions.clampPosition ed p <= Editor.totalSixteenths ed - 1 /\
  (p <= Editor.totalSixteenths ed - 1 -> Interactions.clampPosition ed p = p).
Proof.
  intros Hp Htot. rewrite clampPosition_min. lia.
Qed.

Lemma clampPosition_below_end_witness :
  0 <= Interactions.clampPosition (blank 32) 50 <= 31.
Proof.
  apply (clampPosition_below_end (blank 32) 50); simpl; lia.
Defined.

(** ** Quantization *)

Section quantize.
Import Editor Interactions.

Lemma over_step_times_step (x : Q) (s : Z) :
  0 < s -> (x / inject_Z s * inject_Z s == x)%Q.
Proof.
  intros Hs. field. intros H.
  apply (inject_Z_injective s 0) in H. lia.
Qed.

Lemma inject_Z_pos (s : Z) : 0 < s -> (0 < inject_Z s)%Q.
Proof. intros Hs. change 0%Q with (inject_Z 0). now rewrite <- Zlt_Qlt. Qed.

Lemma Math_round_between (y : Q) :
  Math_floor y <= Math_round y <= Math_ceil y.
Proof.
  unfold Math_floor, Math_round, Math_ceil. split.
  - apply Qfloor_resp_le.
    rewrite <- (Qplus_0_r y) at 1. apply Qplus_le_r. discriminate.
  - rewrite <- (Math_round_integer (Qceiling y)). unfold Math_round.
    apply Qfloor_resp_le, Qplus_le_l, Qle_ceiling.
Qed.

End quantize.

(** X4. On a positive step, quantizing downwards and upwards bracket the
    position within one step: floor <= x < floor + step and
    ceil - step < x <= ceil; rounding to nearest lands on one of the two,
    which are at most one step apart. *)
Theorem quantizePosition_brackets (ed : Editor.t) (x : Q) :
  0 < Editor.quantizeStep ed ->
  let step := Editor.quantizeStep ed in
  let lo := Interactions.quantizePosition ed x Interactions.Math_floor in
  let hi := Interactions.quantizePosition ed x Interactions.Math_ceil in
  let mid := Interactions.quantizePosition ed x Interactions.Math_round in
  (inject_Z lo <= x)%Q /\ (x < inject_Z (lo + step))%Q /\
  (inject_Z (hi - step) < x)%Q /\ (x <= inject_Z hi)%Q /\
  lo <= mid <= hi /\ hi - lo <= step /\ (mid = lo \/ mid = hi).
Proof.
  intros Hs step lo hi mid.
  pose proof (inject_Z_pos _ Hs) as Hsq.
  set (y := (x / inject_Z step)%Q).
  assert (Hy : (y * inject_Z step == x)%Q) by now apply over_step_times_step.
  assert (Hlo : (inject_Z lo <= x)%Q).
  { unfold lo, Interactions.quantizePosition. fold step y.
    rewrite inject_Z_mult, <- Hy. apply Qmult_le_compat_r.
    - apply Qfloor_le.
    - now apply Qlt_le_weak. }
  assert (Hlo' : (x < inject_Z (lo + step))%Q).
  { unfold lo, Interactions.quantizePosition. fold step y.
    replace (Interactions.Math_floor y * step + step)
      with ((Qfloor y + 1) * step) by (unfold Interactions.Math_floor; lia).
    rewrite inject_Z_mult. rewrite <- Hy at 1.
    apply Qmult_lt_compat_r; [exact Hsq | apply Qlt_floor]. }
  assert (Hhi' : (inject_Z (hi - step) < x)%Q).
  { unfold hi, Interactions.quantizePosition. fold step y.
    replace (Interactions.Math_ceil y * step - step)
      with ((Qceiling y - 1) * step) by (unfold Interactions.Math_ceil; lia).
    rewrite inject_Z_mult. rewrite <- Hy at 1.
    apply Qmult_lt_compat_r; [exact Hsq | apply Qceiling_lt]. }
  assert (Hhi : (x <= inject_Z hi)%Q).
  { unfold hi, Interactions.quantizePosition. fold step y.
    rewrite inject_Z_mult, <- Hy at 1. apply Qmult_le_compat_r.
    - apply Qle_ceiling.
    - now apply Qlt_le_weak. }
  pose proof (Math_round_between y) as [Hfm Hmc].
  assert (Hfc : Interactions.Math_ceil y - Interactions.Math_floor y <= 1).
  { assert (H : (inject_Z (hi - step) < inject_Z (lo + step))%Q)
      by (eapply Qlt_trans; eassumption).
    rewrite <- Zlt_Qlt in H.
    unfold hi, lo, Interactions.quantizePosition in H. fold step y in H.
    nia. }
  repeat split; try assumption;
    unfold lo, mid, hi, Interactions.quantizePosition; fold step y.
  - now apply Z.mul_le_mono_nonneg_r; [lia|].
  - now apply Z.mul_le_mono_nonneg_r; [lia|].
  - nia.
  - assert (Hcases : Interactions.Math_round y = Interactions.Math_floor y \/
                     Interactions.Math_round y = Interactions.Math_ceil y)
      by lia.
    destruct Hcases as [-> | ->]; auto.
Qed.

Lemma quantizePosition_brackets_witness :
  Interactions.quantizePosition (blank 32) (7 # 2) Interactions.Math_floor
    <= Interactions.quantizePosition (blank 32) (7 # 2) Interactions.Math_round
    <= Interactions.quantizePosition (blank 32) (7 # 2) Interactions.Math_ceil.
Proof.
  apply (quantizePosition_brackets (blank 32) (7 # 2)). simpl. lia.
Defined.

(** ** Drags on the grid *)

Section grid_drags.
Import Editor Interactions.

Lemma quantizePosition_proper (ed : t) (fn : Q -> Z) (a b : Q) :
  rounding_mode fn -> (a == b)%Q ->
  quantizePosition ed a fn = quantizePosition ed b fn.
Proof.
  intros Hfn Hab. unfold quantizePosition. f_equal.
  apply rounding_mode_proper; [exact Hfn|]. now rewrite Hab.
Qed.

Lemma Qdiv_le_pos (c a b : Q) : (0 < c)%Q -> (a <= b)%Q -> (a / c <= b / c)%Q.
Proof.
  intros Hc Hab. unfold Qdiv.
  apply Qmult_le_compat_r; [exact Hab|].
  apply Qlt_le_weak, Qinv_lt_0_compat, Hc.
Qed.

(** The smaller and the larger of two coordinates, as the handlers pick
    them. *)
Lemma drag_ends_ordered (a b : Q) :
  ((if Qle_bool a b then a else b)
   <= (if negb (Qle_bool a b) then a else b))%Q.
Proof.
  destruct (Qle_bool a b) eqn:Hle; simpl.
  - now apply Qle_bool_iff.
  - apply Qlt_le_weak, Qnot_le_lt. intros Hc.
    apply Qle_bool_iff in Hc. congruence.
Qed.

End grid_drags.

(** X5. A drag along a mask lane gives the same position range in either
    direction, and on a grid of positive cell width and step the range is
    ordered: its start is not after its end. *)
Theorem maskLanePositionRange_either_direction (w aX bX : Q) (ed : Editor.t) :
  (0 < w)%Q -> 0 < Editor.quantizeStep ed ->
  Interactions.maskLanePositionRange w aX bX ed
  = Interactions.maskLanePositionRange w bX aX ed /\
  (Interactions.maskLanePositionRange w aX bX ed).1
  <= (Interactions.maskLanePositionRange w aX bX ed).2.
Proof.
  intros Hw Hs. split; [|now apply maskLanePositionRange_ordered].
  unfold Interactions.maskLanePositionRange.
  destruct (Qle_bool aX bX) eqn:Hab, (Qle_bool bX aX) eqn:Hba; simpl.
  - apply Qle_bool_iff in Hab, Hba.
    assert (Heq : (aX == bX)%Q) by now apply Qle_antisym.
    f_equal; apply quantizePosition_proper;
      try (right; auto; fail); now rewrite Heq.
  - reflexivity.
  - reflexivity.
  - exfalso.
    assert (H1 : ~ (aX <= bX)%Q)
      by (intros H; apply Qle_bool_iff in H; congruence).
    assert (H2 : ~ (bX <= aX)%Q)
      by (intros H; apply Qle_bool_iff in H; congruence).
    apply Qnot_le_lt in H1. apply H2. now apply Qlt_le_weak.
Qed.

Lemma maskLanePositionRange_either_direction_witness :
  Interactions.maskLanePositionRange 10 75 20 (blank 32)
  = Interactions.maskLanePositionRange 10 20 75 (blank 32).
Proof.
  apply (maskLanePositionRange_either_direction 10 75 20 (blank 32)).
  - reflexivity.
  - simpl. lia.
Defined.

(** X6. The rectangle that the mask tool hands to [maskNotes] is ordered in
    both dimensions on a grid of positive cell width, cell height and
    step, whichever corner the drag started from. *)
Theorem maskToolRanges_ordered (MAX_PITCH : Z) (layout : Interactions.Layout)
    (aXY bXY : Q * Q) (ed : Editor.t) :
  (0 < Interactions.sixteenthWidth layout)%Q ->
  (0 < Interactions.noteHeight layout)%Q ->
  0 < Editor.quantizeStep ed ->
  let '(positionRange, valueRange) :=
    Interactions.maskToolRanges MAX_PITCH layout aXY bXY ed in
  positionRange.1 <= positionRange.2 /\ valueRange.1 <= valueRange.2.
Proof.
  intros Hw Hh Hs. destruct aXY as [aX aY], bXY as [bX bY].
  unfold Interactions.maskToolRanges. cbv zeta. cbn [fst snd]. split.
  - exact (maskLanePositionRange_ordered _ aX bX ed Hw Hs).
  - unfold Interactions.Math_floor.
    pose proof (Qfloor_resp_le _ _
                  (Qdiv_le_pos _ _ _ Hh (drag_ends_ordered aY bY))).
    lia.
Qed.

Lemma maskToolRanges_ordered_witness :
  let '(positionRange, valueRange) :=
    Interactions.maskToolRanges 81 (Interactions.mkLayout 10 8)
      (75%Q, 40%Q) (20%Q, 12%Q) (blank 32) in
  positionRange.1 <= positionRange.2 /\ valueRange.1 <= valueRange.2.
Proof.
  apply (maskToolRanges_ordered 81 (Interactions.mkLayout 10 8)
           (75%Q, 40%Q) (20%Q, 12%Q) (blank 32)).
  - reflexivity.
  - reflexivity.
  - simpl. lia.
Defined.

(** X7. Dragging a loop marker never crosses the markers nor takes one off the
    timeline: if [loopStart < loopEnd] and both lie on
    [0, totalSixteenths] before [handleLoopStartDrag] or
    [handleLoopEndDrag], they do after, and the marker that is not dragged
    stays where it is. *)
Theorem loop_drag_keeps_markers_apart (layout : Interactions.Layout)
    (drag : Interactions.DragState) (clientX : Q) (ed : Editor.t)
    (engine : Interactions.Engine) :
  Interactions.loopStart engine < Interactions.loopEnd engine ->
  0 <= Interactions.loopStart engine ->
  Interactions.loopEnd engine <= Editor.totalSixteenths ed ->
  let moved_start :=
    Interactions.handleLoopStartDrag layout drag clientX ed engine in
  let moved_end :=
    Interactions.handleLoopEndDrag layout drag clientX ed engine in
  (0 <= Interactions.loopStart moved_start
     < Interactions.loopEnd moved_start /\
   Interactions.loopEnd moved_start = Interactions.loopEnd engine) /\
  (Interactions.loopStart moved_end < Interactions.loopEnd moved_end
     <= Editor.totalSixteenths ed /\
   Interactions.loopStart moved_end = Interactions.loopStart engine).
Proof.
  intros Hlt H0 Htot moved_start moved_end.
  assert (Hpos : 0 <= Editor.totalSixteenths ed) by lia.
  split.
  - unfold moved_start, Interactions.handleLoopStartDrag.
    set (next := Interactions.clampLoopPosition ed _).
    pose proof (proj1 (clampLoopPosition_in_range ed _ Hpos) : 0 <= next).
    destruct (negb _ && (next <? _)) eqn:Hmove; simpl; [|lia].
    apply andb_true_iff in Hmove as [_ Hmove].
    apply Z.ltb_lt in Hmove. lia.
  - unfold moved_end, Interactions.handleLoopEndDrag.
    set (next := Interactions.clampLoopPosition ed _).
    pose proof (proj2 (clampLoopPosition_in_range ed _ Hpos)
                : next <= Editor.totalSixteenths ed).
    destruct (negb _ && (next >? _)) eqn:Hmove; simpl; [|lia].
    apply andb_true_iff in Hmove as [_ Hmove].
    apply Z.gtb_lt in Hmove. lia.
Qed.

Lemma loop_drag_keeps_markers_apart_witness :
  let engine := Interactions.mkEngine 0 32 in
  let drag := Interactions.mkDragState 0 0 0 0 0 0 0 32 in
  Interactions.loopStart
    (Interactions.handleLoopStartDrag (Interactions.mkLayout 10 8) drag
       1000 (blank 32) engine)
  < Interactions.loopEnd
      (Interactions.handleLoopStartDrag (Interactions.mkLayout 10 8) drag
         1000 (blank 32) engine).
Proof.
  intros engine drag.
  apply (loop_drag_keeps_markers_apart (Interactions.mkLayout 10 8) drag
           1000 (blank 32) engine); simpl; lia.
Defined.

(** X8. While a note is dragged, [handleNoteDrag] writes to that note alone and
    only its position and pitch: the pitch is within
    [MIN_PITCH, MAX_PITCH], the position is the start of the drag plus a
    whole number of steps, cut off at [totalSixteenths - 1]; the note maps
    and all other notes are as before. *)
Theorem handleNoteDrag_moves_one_note (MIN_PITCH MAX_PITCH : Z)
    (layout : Interactions.Layout) (drag : Interactions.DragState)
    (note : ref) (n : Note) (clientX clientY : Q) (ed : Editor.t) :
  MIN_PITCH <= MAX_PITCH ->
  Editor.heap ed !! note = Some n ->
  let ed' := Interactions.handleNoteDrag MIN_PITCH MAX_PITCH layout drag
               note clientX clientY ed in
  exists (nextPosition nextValue k : Z),
    Editor.heap ed' !! note
    = Some (Interactions.setPositionPitch nextPosition nextValue n) /\
    MIN_PITCH <= nextValue <= MAX_PITCH /\
    nextPosition
    = Z.min (Interactions.noteDragStartPosition drag
             + k * Editor.quantizeStep ed)
            (Editor.totalSixteenths ed - 1) /\
    (forall r, r <> note -> Editor.heap ed' !! r = Editor.heap ed !! r) /\
    Editor.notesMap ed' = Editor.notesMap ed /\
    Editor.tempNotesMap ed' = Editor.tempNotesMap ed.
Proof.
  intros Hle Hn ed'. unfold ed', Interactions.handleNoteDrag.
  unfold Interactions.nextNoteCell, Interactions.quantizePosition. cbv zeta.
  set (nextValue := Interactions.clampPitch _ _ _).
  set (q := Interactions.Math_round _).
  set (nextPosition := Interactions.clampPosition ed _).
  exists nextPosition, nextValue, q.
  rewrite Hn.
  assert (Hv : MIN_PITCH <= nextValue <= MAX_PITCH)
    by now apply clampPitch_in_range.
  assert (Hp : nextPosition
               = Z.min (Interactions.noteDragStartPosition drag
                        + q * Editor.quantizeStep ed)
                       (Editor.totalSixteenths ed - 1))
    by apply clampPosition_min.
  destruct (negb (bool_decide (nextPosition = position n)) ||
            negb (bool_decide (nextValue = pitch n))) eqn:Hmoved; simpl.
  - rewrite lookup_insert_eq. repeat split; try assumption; try lia.
    intros r Hr. now rewrite lookup_insert_ne.
  - apply orb_false_iff in Hmoved as [H1 H2].
    apply negb_false_iff, bool_decide_eq_true in H1, H2.
    rewrite Hn. repeat split; try assumption; try lia.
    f_equal. destruct n; simpl in *. unfold Interactions.setPositionPitch.
    simpl. now rewrite H1, H2.
Qed.

Lemma handleNoteDrag_moves_one_note_witness :
  exists n',
    Editor.heap
      (Interactions.handleNoteDrag 36 81 (Interactions.mkLayout 10 8)
         (Interactions.mkDragState 0 0 0 60 0 0 0 32) 1%positive 45 (-16)
         single_note) !! 1%positive = Some n' /\
    36 <= pitch n' <= 81.
Proof.
  destruct (handleNoteDrag_moves_one_note 36 81 (Interactions.mkLayout 10 8)
              (Interactions.mkDragState 0 0 0 60 0 0 0 32) 1%positive
              (mkNote 1 60 0 4 SOPRANO USER false false) 45 (-16)
              single_note ltac:(lia) eq_refl)
    as (np & nv & k & Hn' & Hv & _).
  eexists. split; [exact Hn'|]. exact Hv.
Defined.

(** ** Writing the masks *)

Section mask_writes.
Import Editor Interactions.

Lemma arraySet_length (i : nat) (x : list Z) (a : list (list Z)) :
  length (arraySet i x a) = Nat.max (length a) (S i).
Proof.
  unfold arraySet. destruct (decide (i < length a)%nat).
  - rewrite length_insert. lia.
  - rewrite !length_app, length_replicate. simpl. lia.
Qed.

Lemma maskAt_same_members (v : nat) (ed1 ed2 : t) :
  strictly_ascending (maskAt v ed1) -> strictly_ascending (maskAt v ed2) ->
  (forall i, i ∈ maskAt v ed1 <-> i ∈ maskAt v ed2) ->
  maskAt v ed1 = maskAt v ed2.
Proof. apply strictly_ascending_unique. Qed.

End mask_writes.

(** X9. A click on a mask lane masks the whole lane: afterwards the mask of the
    voice holds every step of the timeline, in ascending order, and it is
    exactly the steps [0 .. totalSixteenths - 1] when no index outside the
    timeline was masked before. *)
Theorem handleMaskLaneClick_masks_whole_lane (v : nat) (ed : Editor.t) :
  0 <= Editor.totalSixteenths ed ->
  let ed' := Interactions.handleMaskLaneClick v ed in
  strictly_ascending (Editor.maskAt v ed') /\
  (forall i, 0 <= i < Editor.totalSixteenths ed -> i ∈ Editor.maskAt v ed') /\
  (within_timeline (Editor.totalSixteenths ed) (Editor.maskAt v ed) ->
   Editor.maskAt v ed' = seqZ 0 (Editor.totalSixteenths ed)).
Proof.
  intros Htot ed'. unfold ed', Interactions.handleMaskLaneClick.
  split; [apply maskAt_addMask_ascending|]. split.
  - intros i Hi. apply maskAt_addMask. right.
    now apply range_elem_of_upwards.
  - intros Hin. apply strictly_ascending_unique.
    + apply maskAt_addMask_ascending.
    + apply seqZ_strictly_ascending.
    + intros i. rewrite maskAt_addMask, range_elem_of_upwards by exact Htot.
      rewrite elem_of_seqZ. split; [|intros Hi; right; lia].
      intros [Hi|Hi]; [|lia].
      pose proof (proj1 (Forall_forall _ _) Hin i Hi) as Hb.
      cbv beta in Hb. lia.
Qed.

Lemma handleMaskLaneClick_masks_whole_lane_witness :
  Editor.maskAt 1 (Interactions.handleMaskLaneClick 1 (blank 4))
  = [0; 1; 2; 3].
Proof.
  apply (handleMaskLaneClick_masks_whole_lane 1%nat (blank 4)).
  - simpl. lia.
  - constructor.
Defined.

(** X10. [addMask] is a union: two calls for a voice mask what one call with
    both lists masks, in either order, and a repeated call changes
    nothing. *)
Theorem addMask_is_union (v : nat) (m1 m2 : list Z) (ed : Editor.t) :
  Editor.maskAt v (Editor.addMask v m2 (Editor.addMask v m1 ed))
  = Editor.maskAt v (Editor.addMask v (m1 ++ m2) ed) /\
  Editor.maskAt v (Editor.addMask v m2 (Editor.addMask v m1 ed))
  = Editor.maskAt v (Editor.addMask v m1 (Editor.addMask v m2 ed)) /\
  Editor.maskAt v (Editor.addMask v m1 (Editor.addMask v m1 ed))
  = Editor.maskAt v (Editor.addMask v m1 ed).
Proof.
  repeat split; apply strictly_ascending_unique;
    try apply maskAt_addMask_ascending;
    intros i; rewrite !maskAt_addMask, ?elem_of_app; tauto.
Qed.

(** X11. [removeMask] leaves none of the supplied indices in the mask of the
    voice and adds none; removing the indices of the mask itself, as a
    click on the mask rectangle does, leaves the voice unmasked. *)
Theorem removeMask_removes_supplied (v : nat) (m : list Z) (ed : Editor.t) :
  (forall i, i ∈ m -> i ∉ Editor.maskAt v (Editor.removeMask v m ed)) /\
  (forall i, i ∈ Editor.maskAt v (Editor.removeMask v m ed) ->
             i ∈ Editor.maskAt v ed) /\
  Editor.maskAt v
    (Interactions.handleMaskRectClick v (Editor.maskAt v ed) ed) = [].
Proof.
  split; [|split].
  - intros i Hi Hin. apply maskAt_removeMask in Hin as [_ Hout]. auto.
  - intros i Hin. now apply maskAt_removeMask in Hin as [Hin _].
  - unfold Interactions.handleMaskRectClick.
    destruct (Editor.maskAt v (Editor.removeMask v _ ed)) as [|i l] eqn:Hl;
      [reflexivity|].
    assert (Hin : i ∈ Editor.maskAt v
                       (Editor.removeMask v (Editor.maskAt v ed) ed))
      by (rewrite Hl; apply list_elem_of_here).
    apply maskAt_removeMask in Hin as [Hin Hout]. contradiction.
Qed.

(** X12. [addMask] and [removeMask] write the mask of one voice: the masks of
    the other voices, the notes and the note maps are untouched, and the
    array of masks never gets shorter. *)
Theorem mask_writes_are_local (v v' : nat) (m : list Z) (ed : Editor.t) :
  v <> v' ->
  Editor.maskAt v' (Editor.addMask v m ed) = Editor.maskAt v' ed /\
  Editor.maskAt v' (Editor.removeMask v m ed) = Editor.maskAt v' ed /\
  (length (Editor.generationMasks ed)
   <= length (Editor.generationMasks (Editor.addMask v m ed)))%nat /\
  (length (Editor.generationMasks ed)
   <= length (Editor.generationMasks (Editor.removeMask v m ed)))%nat /\
  Editor.heap (Editor.addMask v m ed) = Editor.heap ed /\
  Editor.heap (Editor.removeMask v m ed) = Editor.heap ed /\
  Editor.allNotes (Editor.addMask v m ed) = Editor.allNotes ed /\
  Editor.allNotes (Editor.removeMask v m ed) = Editor.allNotes ed.
Proof.
  intros Hne.
  split; [now apply maskAt_addMask_ne|].
  split; [now apply maskAt_removeMask_ne|].
  unfold Editor.addMask, Editor.removeMask; simpl.
  rewrite !arraySet_length. repeat split; lia.
Qed.

Lemma mask_writes_are_local_witness :
  Editor.maskAt 0 (Editor.addMask 2 [5; 6] masked_1_2)
  = Editor.maskAt 0 masked_1_2.
Proof.
  apply (mask_writes_are_local 2%nat 0%nat [5; 6] masked_1_2). discriminate.
Defined.

(** ** What the mask tool masks, and what then counts as masked *)

Section mask_origin.
Import Editor.

(** Every index in a mask after the loop of [maskNotes] was there before
    or comes from the range computed for a note of the loop. *)
Lemma maskOne_fold_origin positionRange (l : list ref) (ed : t) (v : nat)
    (i : Z) :
  i ∈ maskAt v (foldl (maskOne positionRange) ed l) ->
  i ∈ maskAt v ed \/
  exists r n, r ∈ l /\ heap ed !! r = Some n /\ voiceIndex (voice n) = v /\
    i ∈ Lodash.range (Z.max positionRange.1 (start n))
                     (Z.min positionRange.2 (end_ n)).
Proof.
  revert ed. induction l as [|r l IH]; intros ed Hi; simpl in Hi.
  - now left.
  - apply IH in Hi as [Hi|(r' & n & Hr' & Hn & Hv & Hi)].
    + unfold maskOne in Hi.
      destruct (heap ed !! r) as [n|] eqn:Hn; [|now left].
      destruct (decide (voiceIndex (voice n) = v)) as [Hv|Hv].
      * subst v. apply maskAt_addMask in Hi as [Hi|Hi]; [now left|].
        right. exists r, n. split; [apply list_elem_of_here|]. auto.
      * rewrite maskAt_addMask_ne in Hi by exact Hv. now left.
    + right. exists r', n. split; [now apply list_elem_of_further|].
      destruct (maskOne_heap positionRange ed r) as [Hh _].
      rewrite Hh in Hn. auto.
Qed.

Lemma isNoteMasked_at (n : Note) (ed : t) (mask : list Z) :
  generationMasks ed !! voiceIndex (voice n) = Some mask ->
  exists b, isNoteMasked n ed = Ok b /\
    (b = true <-> exists i, i ∈ mask /\ start n <= i < end_ n).
Proof.
  intros Hmask. unfold isNoteMasked. rewrite Hmask.
  eexists; split; [reflexivity|].
  rewrite existsb_exists. split.
  - intros (i & Hi & Hb). exists i. split; [now apply list_elem_of_In|].
    apply andb_true_iff in Hb as [H1 H2].
    rewrite Z.geb_leb in H1. apply Z.leb_le in H1. apply Z.ltb_lt in H2. lia.
  - intros (i & Hi & Hb). exists i. split; [now apply list_elem_of_In|].
    apply andb_true_iff. rewrite Z.geb_leb. split.
    + apply Z.leb_le. lia.
    + apply Z.ltb_lt. lia.
Qed.

End mask_origin.

(** X13. [maskNotes] only ever adds to the masks, and only inside the
    selection: with an ordered position range and no note of negative
    duration, an index that is newly in the mask of a voice lies within the
    position range and within the span of a note of that voice whose pitch
    is in the pitch range. *)
Theorem maskNotes_masks_inside_selection (positionRange pitchRange : Z * Z)
    (ed : Editor.t) :
  positionRange.1 <= positionRange.2 ->
  (forall r n, r ∈ Editor.allNotes ed -> Editor.heap ed !! r = Some n ->
               0 <= duration n) ->
  exists ed',
    Editor.maskNotes positionRange pitchRange ed = Ok ed' /\
    (forall v i, i ∈ Editor.maskAt v ed -> i ∈ Editor.maskAt v ed') /\
    (forall v i,
       i ∈ Editor.maskAt v ed' -> i ∉ Editor.maskAt v ed ->
       positionRange.1 <= i < positionRange.2 /\
       exists r n,
         r ∈ Editor.allNotes ed /\ Editor.heap ed !! r = Some n /\
         voiceIndex (voice n) = v /\
         pitchRange.1 <= pitch n <= pitchRange.2 /\
         start n <= i < end_ n).
Proof.
  intros Hord Hdur.
  destruct (maskNotes_returns positionRange pitchRange ed) as [u Hu].
  eexists; split; [exact Hu|]. split.
  - intros v i Hi. change (i ∈ Editor.maskAt v
                             (maskNotesBody positionRange pitchRange ed)).
    now apply maskOne_fold_monotone.
  - intros v i Hi Hold.
    change (i ∈ Editor.maskAt v (maskNotesBody positionRange pitchRange ed))
      in Hi.
    apply maskOne_fold_origin in Hi as [Hi|(r & n & Hr & Hn & Hv & Hi)];
      [contradiction|].
    apply list_elem_of_In, filter_In in Hr as [Hr Hsel].
    apply list_elem_of_In in Hr.
    unfold Editor.holds in Hsel. rewrite Hn in Hsel.
    destruct positionRange as [ps pe], pitchRange as [v0 v1]. simpl in *.
    pose proof (mask_range_upwards n ps pe v0 v1 Hsel Hord (Hdur r n Hr Hn))
      as Hup.
    apply range_elem_of_upwards in Hi; [|exact Hup].
    apply overlaps_true in Hsel as [Hp _].
    split; [lia|]. exists r, n. repeat split; try assumption; lia.
Qed.

Lemma maskNotes_masks_inside_selection_witness :
  exists ed',
    Editor.maskNotes (2, 8) (60, 60) single_note = Ok ed' /\
    (forall v i, i ∈ Editor.maskAt v ed' -> 2 <= i < 8).
Proof.
  destruct (maskNotes_masks_inside_selection (2, 8) (60, 60) single_note)
    as (ed' & He & _ & Hnew).
  - simpl. lia.
  - intros r n Hr Hn. simpl in Hr. apply list_elem_of_singleton in Hr.
    subst r. simpl in Hn. rewrite lookup_singleton_eq in Hn.
    injection Hn as <-. simpl. lia.
  - exists ed'. split; [exact He|]. intros v i Hi.
    apply (Hnew v i Hi).
    assert (Hempty : Editor.maskAt v single_note = []).
    { unfold Editor.maskAt. simpl.
      destruct v as [|[|[|[|v]]]]; reflexivity. }
    rewrite Hempty. apply not_elem_of_nil.
Defined.

(** X14. A note that the mask tool selects counts as masked afterwards: if the
    note lasts at least one step, its pitch is in the pitch range and its
    span shares a step with a non-empty position range, then after
    [maskNotes] [isNoteMasked] returns true for it. *)
Theorem maskNotes_then_isNoteMasked (positionRange pitchRange : Z * Z)
    (ed : Editor.t) (r : ref) (n : Note) :
  r ∈ Editor.allNotes ed ->
  Editor.heap ed !! r = Some n ->
  0 < duration n ->
  pitchRange.1 <= pitch n <= pitchRange.2 ->
  Z.max positionRange.1 (start n) < Z.min positionRange.2 (end_ n) ->
  exists ed',
    Editor.maskNotes positionRange pitchRange ed = Ok ed' /\
    Editor.heap ed' !! r = Some n /\
    Editor.isNoteMasked n ed' = Ok true.
Proof.
  intros Hr Hn Hdur Hp Hshare.
  destruct (maskNotes_returns positionRange pitchRange ed) as [u He].
  destruct (maskNotesBody_heap positionRange pitchRange ed) as (Hh & _).
  eexists. split; [exact He|]. split; [simpl; now rewrite Hh|].
  set (ed' := Editor.with_undo u _).
  set (i := Z.max positionRange.1 (start n)) in *.
  assert (Hi : i ∈ Editor.maskAt (voiceIndex (voice n)) ed').
  { change (i ∈ Editor.maskAt (voiceIndex (voice n))
                  (maskNotesBody positionRange pitchRange ed)).
    unfold maskNotesBody.
    apply (maskOne_fold_covers positionRange _ ed r n i); [|exact Hn|lia].
    apply list_elem_of_In, filter_In. split; [now apply list_elem_of_In|].
    unfold Editor.holds. rewrite Hn.
    destruct positionRange as [ps pe], pitchRange as [v0 v1].
    apply overlaps_true. unfold i, start, end_ in *. simpl in *. lia. }
  unfold Editor.maskAt in Hi.
  destruct (Editor.generationMasks ed' !! voiceIndex (voice n))
    as [mask|] eqn:Hmask; [|now apply elem_of_nil in Hi].
  simpl in Hi.
  destruct (isNoteMasked_at n ed' mask Hmask) as (b & Hb & Hiff).
  rewrite Hb. f_equal. apply Hiff. exists i. split; [exact Hi|].
  unfold i. lia.
Qed.

Lemma maskNotes_then_isNoteMasked_witness :
  exists ed',
    Editor.maskNotes (2, 8) (60, 60) single_note = Ok ed' /\
    Editor.isNoteMasked (mkNote 1 60 0 4 SOPRANO USER false false) ed'
    = Ok true.
Proof.
  destruct (maskNotes_then_isNoteMasked (2, 8) (60, 60) single_note
              1%positive (mkNote 1 60 0 4 SOPRANO USER false false))
    as (ed' & He & _ & Hm).
  - simpl. apply list_elem_of_here.
  - reflexivity.
  - simpl. lia.
  - simpl. lia.
  - unfold start, end_; simpl. lia.
  - exists ed'. auto.
Defined.

(** X15. [getMaskedSequence] returns, in the order of [allNotes], exactly the
    notes of the store that have a masked step of their voice within their
    span; with the four masks of the constructor in place it never
    throws. *)
Theorem getMaskedSequence_filters_masked (ed : Editor.t) :
  (4 <= length (Editor.generationMasks ed))%nat ->
  Editor.getMaskedSequence ed
  = Ok (List.filter
          (Editor.holds (Editor.heap ed)
             (fun n =>
                existsb (fun maskIndex =>
                           (maskIndex >=? start n) && (maskIndex <? end_ n))
                  (Editor.maskAt (voiceIndex (voice n)) ed)))
          (Editor.allNotes ed)).
Proof.
  intros Hlen. unfold Editor.getMaskedSequence.
  change (Ok (List.filter _ (Editor.allNotes ed)))
    with (Ok ([] ++ List.filter
                (Editor.holds (Editor.heap ed)
                   (fun n =>
                      existsb (fun maskIndex =>
                                 (maskIndex >=? start n) &&
                                 (maskIndex <? end_ n))
                        (Editor.maskAt (voiceIndex (voice n)) ed)))
                (Editor.allNotes ed)) : result (list ref)).
  generalize (@nil ref) as acc.
  induction (Editor.allNotes ed) as [|r l IH]; intros acc; simpl.
  - now rewrite app_nil_r.
  - unfold Editor.holds at 1.
    destruct (Editor.heap ed !! r) as [n|]; [|apply IH].
    unfold Editor.isNoteMasked, Editor.maskAt.
    assert (Hv : (voiceIndex (voice n)
                  < length (Editor.generationMasks ed))%nat)
      by (destruct (voice n); simpl; lia).
    destruct (lookup_lt_is_Some_2 _ _ Hv) as [mask Hmask].
    rewrite Hmask. simpl.
    destruct (existsb _ mask); simpl.
    + rewrite IH, <- app_assoc. reflexivity.
    + apply IH.
Qed.

Lemma getMaskedSequence_filters_masked_witness :
  Editor.getMaskedSequence
    (Editor.addMask 0 [3; 9] two_sopranos) = Ok [1%positive].
Proof.
  rewrite getMaskedSequence_filters_masked.
  - vm_compute. reflexivity.
  - vm_compute. lia.
Defined.

(** ** Insertion-ordered maps *)

Section js_map.
Context {V : Type}.
Implicit Types (m : JsMap.t V) (k : Z) (v : V).

Lemma JsMap_get_None k m : JsMap.get k m = None <-> k ∉ m.*1.
Proof.
  induction m as [|[k0 v0] m IH]; simpl.
  - split; [intros _; apply not_elem_of_nil | reflexivity].
  - rewrite not_elem_of_cons. destruct (decide (k0 = k)) as [->|Hne].
    + split; [discriminate | intros [H _]; contradiction].
    + rewrite IH. split; [intros H; split; [congruence | exact H] | tauto].
Qed.

Lemma JsMap_get_elem_of k v m : JsMap.get k m = Some v -> (k, v) ∈ m.
Proof.
  induction m as [|[k0 v0] m IH]; simpl; [discriminate|].
  destruct (decide (k0 = k)) as [->|Hne].
  - intros [= ->]. apply list_elem_of_here.
  - intros H. apply list_elem_of_further. now apply IH.
Qed.

Lemma JsMap_elem_of_get k v m :
  NoDup m.*1 -> (k, v) ∈ m -> JsMap.get k m = Some v.
Proof.
  induction m as [|[k0 v0] m IH]; simpl; intros Hnd Hin.
  - now apply elem_of_nil in Hin.
  - apply NoDup_cons in Hnd as [Hk0 Hnd].
    apply elem_of_cons in Hin as [[= -> ->]|Hin].
    + now rewrite decide_True.
    + destruct (decide (k0 = k)) as [->|Hne]; [|now apply IH].
      exfalso. apply Hk0. apply list_elem_of_fmap. now exists (k, v).
Qed.

Lemma JsMap_get_app k m1 m2 :
  JsMap.get k (m1 ++ m2)
  = match JsMap.get k m1 with Some v => Some v | None => JsMap.get k m2 end.
Proof.
  induction m1 as [|[k0 v0] m1 IH]; simpl; [reflexivity|].
  now destruct (decide (k0 = k)).
Qed.

Lemma JsMap_set_fresh k v m : k ∉ m.*1 -> JsMap.set k v m = m ++ [(k, v)].
Proof.
  intros Hk. unfold JsMap.set, JsMap.has.
  now rewrite bool_decide_eq_false_2.
Qed.

Lemma JsMap_set_keys k v m :
  (JsMap.set k v m).*1 = if JsMap.has k m then m.*1 else m.*1 ++ [k].
Proof.
  unfold JsMap.set. destruct (JsMap.has k m).
  - rewrite <- list_fmap_compose. apply list_fmap_ext.
    intros i [k0 v0] _. simpl. now destruct (decide (k0 = k)).
  - now rewrite fmap_app.
Qed.

Lemma JsMap_set_NoDup k v m : NoDup m.*1 -> NoDup (JsMap.set k v m).*1.
Proof.
  intros Hnd. rewrite JsMap_set_keys. unfold JsMap.has.
  destruct (bool_decide (k ∈ m.*1)) eqn:Hk; [exact Hnd|].
  apply bool_decide_eq_false in Hk.
  apply NoDup_app. repeat split; [exact Hnd | | apply NoDup_singleton].
  intros x Hx Hx'. apply list_elem_of_singleton in Hx'. now subst.
Qed.

Lemma JsMap_get_set_eq k v m : JsMap.get k (JsMap.set k v m) = Some v.
Proof.
  unfold JsMap.set, JsMap.has.
  destruct (bool_decide (k ∈ m.*1)) eqn:Hk.
  - apply bool_decide_eq_true in Hk.
    induction m as [|[k0 v0] m IH]; simpl in *.
    + now apply elem_of_nil in Hk.
    + destruct (decide (k0 = k)) as [->|Hne]; simpl.
      * now rewrite decide_True.
      * rewrite decide_False by exact Hne. apply IH.
        apply elem_of_cons in Hk as [Hk|Hk]; [congruence | exact Hk].
  - apply bool_decide_eq_false in Hk. rewrite JsMap_get_app.
    apply JsMap_get_None in Hk. rewrite Hk. simpl. now rewrite decide_True.
Qed.

Lemma JsMap_get_set_ne k k' v m :
  k' <> k -> JsMap.get k' (JsMap.set k v m) = JsMap.get k' m.
Proof.
  intros Hne. unfold JsMap.set. destruct (JsMap.has k m).
  - induction m as [|[k0 v0] m IH]; simpl; [reflexivity|].
    destruct (decide (k0 = k)) as [->|Hk0]; simpl.
    + rewrite !decide_False by congruence. exact IH.
    + destruct (decide (k0 = k')); [reflexivity | exact IH].
  - rewrite JsMap_get_app. destruct (JsMap.get k' m); [reflexivity|].
    simpl. now rewrite decide_False by congruence.
Qed.

Lemma JsMap_delete_NoDup k m : NoDup m.*1 -> NoDup (JsMap.delete k m).*1.
Proof.
  unfold JsMap.delete. induction m as [|[k0 v0] m IH]; intros Hnd.
  - exact Hnd.
  - simpl in Hnd. apply NoDup_cons in Hnd as [Hk0 Hnd].
    rewrite filter_cons; simpl.
    destruct (decide (k0 ≠ k)); [|now apply IH].
    simpl. apply NoDup_cons. split; [|now apply IH].
    intros Hin. apply Hk0.
    apply list_elem_of_fmap in Hin as [kv [-> Hin]].
    apply list_elem_of_fmap. exists kv. split; [reflexivity|].
    now apply list_elem_of_filter in Hin as [_ Hin].
Qed.

(** Setting fresh keys one after the other appends the entries. *)
Lemma JsMap_fold_set_fresh (l : list (Z * V)) m :
  NoDup (m ++ l).*1 ->
  foldl (fun m kv => JsMap.set kv.1 kv.2 m) m l = m ++ l.
Proof.
  revert m. induction l as [|[k v] l IH]; intros m Hnd; simpl.
  - now rewrite app_nil_r.
  - rewrite JsMap_set_fresh.
    + rewrite IH; rewrite <- app_assoc; [reflexivity | exact Hnd].
    + rewrite fmap_app in Hnd. apply NoDup_app in Hnd as (_ & Hdisj & _).
      intros Hk. apply (Hdisj k Hk). simpl. apply list_elem_of_here.
Qed.

End js_map.

(** ** Adding, replacing and removing notes *)

Section store.
Import Editor.

(** A decorated method whose body does not look at the undo manager
    returns what its body computes, with the undo manager advanced. *)
Lemma undoable_returns (f : t -> t) (ed : t) :
  (forall u e, f (with_undo u e) = with_undo u (f e)) ->
  exists u, undoable (fun e => Ok (f e)) ed = Ok (with_undo u (f ed)).
Proof.
  intros Hf. unfold undoable.
  destruct (transactionOpen (undo ed)) eqn:Hopen.
  - exists (undo (f ed)). now destruct (f ed).
  - unfold beginUndoable. rewrite Hopen. simpl.
    rewrite Hf. unfold completeUndoable; simpl.
    destruct (decide _); eexists; reflexivity.
Qed.

Lemma _addNote_with_undo (u : UndoManager) (note : ref) (ed : t) :
  _addNote note (with_undo u ed) = with_undo u (_addNote note ed).
Proof. unfold _addNote; simpl. now destruct (heap ed !! note). Qed.

Lemma _addNote_fold_heap (l : list ref) (ed : t) :
  heap (foldl (fun e note => _addNote note e) ed l) = heap ed /\
  tempNotesMap (foldl (fun e note => _addNote note e) ed l)
  = tempNotesMap ed.
Proof.
  revert ed. induction l as [|r l IH]; intros ed; simpl; [auto|].
  destruct (IH (_addNote r ed)) as [-> ->].
  unfold _addNote. now destruct (heap ed !! r).
Qed.

(** Adding the notes of a list of entries, each keyed by the id of its
    note, sets the entries one after the other. *)
Lemma _addNote_fold_entries (l : list (Z * ref)) (ed : t) :
  (forall k r, (k, r) ∈ l ->
     exists o, heap ed !! r = Some o /\ id o = k) ->
  notesMap (foldl (fun e note => _addNote note e) ed l.*2)
  = foldl (fun m kv => JsMap.set kv.1 kv.2 m) (notesMap ed) l.
Proof.
  revert ed. induction l as [|[k r] l IH]; intros ed Hl; simpl.
  - reflexivity.
  - destruct (Hl k r (list_elem_of_here _ _)) as (o & Ho & Hid).
    assert (Hstep : _addNote r ed
                    = with_notesMap (JsMap.set k r (notesMap ed)) ed).
    { unfold _addNote. now rewrite Ho, Hid. }
    rewrite Hstep, IH; [reflexivity|].
    intros k' r' Hin. simpl. apply Hl. now apply list_elem_of_further.
Qed.

End store.

(** X16. [addNote] always returns. The note is then found under its id, every
    other id is found, or not, as before, and with [shouldSelect] the
    selection is the note alone; the map keeps one entry for each id. *)
Theorem addNote_registers_note (note : ref) (n : Note) (shouldSelect : bool)
    (ed : Editor.t) :
  Editor.heap ed !! note = Some n ->
  exists ed',
    Editor.addNote note shouldSelect ed = Ok ed' /\
    JsMap.get (id n) (Editor.notesMap ed') = Some note /\
    (forall k, k <> id n ->
       JsMap.get k (Editor.notesMap ed') = JsMap.get k (Editor.notesMap ed)) /\
    Editor.currentlySelectedNotes ed'
    = (if shouldSelect then [note] else Editor.currentlySelectedNotes ed) /\
    (NoDup (Editor.notesMap ed).*1 -> NoDup (Editor.notesMap ed').*1) /\
    Editor.heap ed' = Editor.heap ed.
Proof.
  intros Hn.
  destruct (undoable_returns
              (fun e => let e := Editor._addNote note e in
                        if shouldSelect then Editor.with_selected [note] e
                        else e) ed) as [u Hu].
  { intros u e. cbv zeta. rewrite _addNote_with_undo.
    now destruct shouldSelect. }
  exists (Editor.with_undo u
            (let e := Editor._addNote note ed in
             if shouldSelect then Editor.with_selected [note] e else e)).
  split; [exact Hu|]. cbv zeta. unfold Editor._addNote. rewrite Hn.
  destruct shouldSelect; simpl;
    (split; [apply JsMap_get_set_eq|]);
    (split; [intros k Hk; now apply JsMap_get_set_ne|]);
    (split; [reflexivity|]);
    (split; [apply JsMap_set_NoDup | reflexivity]).
Qed.

Lemma addNote_registers_note_witness :
  exists ed',
    Editor.addNote 2%positive true two_sopranos = Ok ed' /\
    JsMap.get 2 (Editor.notesMap ed') = Some 2%positive /\
    Editor.currentlySelectedNotes ed' = [2%positive].
Proof.
  destruct (addNote_registers_note 2%positive noteB true two_sopranos eq_refl)
    as (ed' & He & Hget & _ & Hsel & _).
  exists ed'. auto.
Defined.

(** X17. [replaceAllNotes] makes the persistent map exactly the given notes, in
    the given order, each under its id, when their ids are distinct; so
    handing it the notes of the map as they stand, as undo and redo do with
    a snapshot taken from this map, gives the map back. Note objects and
    the temp set are not touched. *)
Theorem replaceAllNotes_sets_exactly (entries : list (Z * ref))
    (ed : Editor.t) :
  NoDup entries.*1 ->
  (forall k r, (k, r) ∈ entries ->
     exists o, Editor.heap ed !! r = Some o /\ id o = k) ->
  Editor.notesMap (Editor.replaceAllNotes entries.*2 ed) = entries /\
  Editor.heap (Editor.replaceAllNotes entries.*2 ed) = Editor.heap ed /\
  Editor.tempNotesMap (Editor.replaceAllNotes entries.*2 ed)
  = Editor.tempNotesMap ed.
Proof.
  intros Hnd Hkeyed. unfold Editor.replaceAllNotes.
  destruct (_addNote_fold_heap entries.*2 (Editor.with_notesMap [] ed))
    as [Hh Ht].
  split; [|split; [exact Hh | exact Ht]].
  rewrite _addNote_fold_entries by exact Hkeyed. simpl.
  now rewrite JsMap_fold_set_fresh.
Qed.

Lemma replaceAllNotes_sets_exactly_witness :
  Editor.notesMap
    (Editor.replaceAllNotes (JsMap.values (Editor.notesMap two_sopranos))
       two_sopranos)
  = Editor.notesMap two_sopranos.
Proof.
  apply (replaceAllNotes_sets_exactly (Editor.notesMap two_sopranos)
           two_sopranos).
  - simpl. repeat constructor; rewrite ?elem_of_cons, ?elem_of_nil; lia.
  - intros k r Hkr. simpl in Hkr.
    rewrite !elem_of_cons, elem_of_nil in Hkr.
    destruct Hkr as [[= -> ->]|[[= -> ->]|[]]].
    + exists noteA. split; reflexivity.
    + exists noteB. split; reflexivity.
Defined.

Section store_folds.
Import Editor.

Lemma _addTempNote_fold_entries (l : list (Z * ref)) (ed : t) :
  (forall k r, (k, r) ∈ l ->
     exists o, heap ed !! r = Some o /\ id o = k) ->
  let ed' := foldl (fun e note => _addTempNote note e) ed l.*2 in
  tempNotesMap ed'
  = foldl (fun m kv => JsMap.set kv.1 kv.2 m) (tempNotesMap ed) l /\
  heap ed' = heap ed /\ notesMap ed' = notesMap ed.
Proof.
  revert ed. induction l as [|[k r] l IH]; intros ed Hl; simpl.
  - auto.
  - destruct (Hl k r (list_elem_of_here _ _)) as (o & Ho & Hid).
    assert (Hstep : _addTempNote r ed
                    = with_tempNotesMap (JsMap.set k r (tempNotesMap ed)) ed).
    { unfold _addTempNote. now rewrite Ho, Hid. }
    rewrite Hstep.
    destruct (IH (with_tempNotesMap (JsMap.set k r (tempNotesMap ed)) ed))
      as (Ht & Hh & Hm).
    { intros k' r' Hin. simpl. apply Hl. now apply list_elem_of_further. }
    auto.
Qed.

Lemma JsMap_get_delete_None {V} (k k' : Z) (m : JsMap.t V) :
  JsMap.get k m = None -> JsMap.get k (JsMap.delete k' m) = None.
Proof. rewrite !JsMap_get_None. apply JsMap_delete_keys. Qed.

Lemma _removeNote_fold (l : list ref) (ed : t) :
  let ed' := foldl (fun e note => _removeNote note e) ed l in
  heap ed' = heap ed /\ tempNotesMap ed' = tempNotesMap ed /\
  (forall k, JsMap.get k (notesMap ed) = None ->
             JsMap.get k (notesMap ed') = None) /\
  (forall k, (forall r n, r ∈ l -> heap ed !! r = Some n -> id n <> k) ->
             JsMap.get k (notesMap ed') = JsMap.get k (notesMap ed)) /\
  (forall r n, r ∈ l -> heap ed !! r = Some n ->
               JsMap.get (id n) (notesMap ed') = None).
Proof.
  revert ed. induction l as [|a l IH]; intros ed; simpl.
  - repeat split; auto. intros r n Hr. now apply elem_of_nil in Hr.
  - destruct (IH (_removeNote a ed)) as (Hh & Ht & Hnone & Hother & Hgone).
    assert (Hstep : heap (_removeNote a ed) = heap ed /\
                    tempNotesMap (_removeNote a ed) = tempNotesMap ed)
      by (unfold _removeNote; now destruct (heap ed !! a)).
    destruct Hstep as [Hh1 Ht1].
    assert (Hnone1 : forall k, JsMap.get k (notesMap ed) = None ->
                       JsMap.get k (notesMap (_removeNote a ed)) = None).
    { intros k Hk. unfold _removeNote.
      destruct (heap ed !! a); [|exact Hk].
      simpl. now apply JsMap_get_delete_None. }
    split; [congruence|]. split; [congruence|]. split; [auto|]. split.
    + intros k Hk. rewrite Hother.
      * unfold _removeNote. destruct (heap ed !! a) as [n|] eqn:Ha;
          [|reflexivity].
        simpl. apply JsMap_get_delete_ne.
        intros ->. now apply (Hk a n (list_elem_of_here _ _) Ha).
      * intros r n Hr Hn. rewrite Hh1 in Hn.
        apply (Hk r n); [now apply list_elem_of_further | exact Hn].
    + intros r n Hr Hn. apply elem_of_cons in Hr as [->|Hr].
      * apply Hnone. unfold _removeNote. rewrite Hn. simpl.
        apply JsMap_get_delete_eq.
      * apply (Hgone r n Hr). now rewrite Hh1.
Qed.

End store_folds.

(** X18. [setTempNotes(notes, clear)] puts the given notes into the temp map,
    each under its id and in the given order, after the entries that were
    there unless [clear]; the ids are taken to be distinct and new to the
    map. The persistent map and the note objects are not touched. *)
Theorem setTempNotes_sets_exactly (entries : list (Z * ref)) (clear : bool)
    (ed : Editor.t) :
  let kept := if clear then [] else Editor.tempNotesMap ed in
  NoDup (kept ++ entries).*1 ->
  (forall k r, (k, r) ∈ entries ->
     exists o, Editor.heap ed !! r = Some o /\ id o = k) ->
  let ed' := Editor.setTempNotes entries.*2 clear ed in
  Editor.tempNotesMap ed' = kept ++ entries /\
  Editor.notesMap ed' = Editor.notesMap ed /\
  Editor.heap ed' = Editor.heap ed.
Proof.
  intros kept Hnd Hkeyed ed'. unfold ed', Editor.setTempNotes.
  destruct (_addTempNote_fold_entries entries
              (if clear then Editor.with_tempNotesMap [] ed else ed))
    as (Ht & Hh & Hm).
  { now destruct clear. }
  rewrite Ht, Hh, Hm.
  replace (Editor.tempNotesMap
             (if clear then Editor.with_tempNotesMap [] ed else ed))
    with kept by now destruct clear.
  rewrite JsMap_fold_set_fresh by exact Hnd.
  now destruct clear.
Qed.

Lemma setTempNotes_sets_exactly_witness :
  Editor.tempNotesMap
    (Editor.setTempNotes [2%positive] true two_sopranos)
  = [(2, 2%positive)].
Proof.
  apply (setTempNotes_sets_exactly [(2, 2%positive)] true two_sopranos).
  - simpl. repeat constructor. apply not_elem_of_nil.
  - intros k r Hkr. apply list_elem_of_singleton in Hkr as [= -> ->].
    exists noteB. split; reflexivity.
Defined.

(** X19. [removeCandidateNoteSequence] takes the id of every listed note out of
    the persistent map and leaves every other id as it was; it touches
    neither the note objects nor the temp map. *)
Theorem removeCandidateNoteSequence_removes_ids (notes : list ref)
    (ed : Editor.t) :
  let ed' := Editor.removeCandidateNoteSequence notes ed in
  (forall r n, r ∈ notes -> Editor.heap ed !! r = Some n ->
     JsMap.get (id n) (Editor.notesMap ed') = None) /\
  (forall k,
     (forall r n, r ∈ notes -> Editor.heap ed !! r = Some n -> id n <> k) ->
     JsMap.get k (Editor.notesMap ed') = JsMap.get k (Editor.notesMap ed)) /\
  Editor.heap ed' = Editor.heap ed /\
  Editor.tempNotesMap ed' = Editor.tempNotesMap ed.
Proof.
  intros ed'. unfold ed', Editor.removeCandidateNoteSequence.
  destruct (_removeNote_fold notes ed) as (Hh & Ht & _ & Hother & Hgone).
  auto.
Qed.

(** ** Agent notes *)

Section agent_notes.
Import Editor.

Definition isAgent (h : gmap ref Note) (r : ref) : bool :=
  holds h (fun n => bool_decide (source n = AGENT)) r.

Lemma JsMap_delete_filter {V} (k : Z) (m : JsMap.t V) :
  JsMap.delete k m
  = List.filter (fun kv => negb (bool_decide (kv.1 = k))) m.
Proof.
  unfold JsMap.delete. induction m as [|[k0 v0] m IH]; [reflexivity|].
  rewrite filter_cons; simpl. rewrite IH.
  destruct (decide (k0 ≠ k)) as [Hne|Heq].
  - now rewrite bool_decide_eq_false_2.
  - rewrite bool_decide_eq_true_2; [reflexivity|].
    destruct (decide (k0 = k)); [assumption | contradiction].
Qed.

Lemma filter_twice {A} (f g : A -> bool) (l : list A) :
  List.filter f (List.filter g l) = List.filter (fun x => g x && f x) l.
Proof.
  induction l as [|x l IH]; simpl; [reflexivity|].
  destruct (g x); simpl; [destruct (f x)|]; now rewrite IH.
Qed.

Lemma clearIfAgent_fold (l : list (Z * ref)) (m : JsMap.t ref) (ed : t) :
  foldl clearIfAgent (with_notesMap m ed) l
  = with_notesMap
      (List.filter
         (fun kv =>
            negb (existsb (fun e => isAgent (heap ed) e.2 &&
                                    bool_decide (kv.1 = e.1)) l)) m)
      ed.
Proof.
  revert m. induction l as [|[k r] l IH]; intros m; simpl.
  - f_equal. induction m as [|x m IHm]; simpl; [reflexivity|].
    now rewrite <- IHm.
  - unfold clearIfAgent at 2. simpl. fold (isAgent (heap ed) r).
    destruct (isAgent (heap ed) r); simpl.
    + change (with_notesMap (JsMap.delete k m) (with_notesMap m ed))
        with (with_notesMap (JsMap.delete k m) ed).
      rewrite IH, JsMap_delete_filter, filter_twice. f_equal.
      apply filter_ext. intros kv. now rewrite negb_orb.
    + apply IH.
Qed.

Lemma unique_key {V} (m : JsMap.t V) (k : Z) (v1 v2 : V) :
  NoDup m.*1 -> (k, v1) ∈ m -> (k, v2) ∈ m -> v1 = v2.
Proof.
  intros Hnd H1 H2.
  apply (JsMap_elem_of_get _ _ _ Hnd) in H1, H2. congruence.
Qed.

Lemma clearAgentNotesBody_filter (ed : t) :
  NoDup (notesMap ed).*1 ->
  clearAgentNotesBody ed
  = with_notesMap
      (List.filter (fun kv => negb (isAgent (heap ed) kv.2)) (notesMap ed))
      ed.
Proof.
  intros Hnd. unfold clearAgentNotesBody.
  replace ed with (with_notesMap (notesMap ed) ed) at 1 by now destruct ed.
  rewrite clearIfAgent_fold. f_equal.
  apply filter_ext_in. intros [k r] Hin. f_equal. simpl.
  apply list_elem_of_In in Hin.
  destruct (isAgent (heap ed) r) eqn:Hr.
  - apply existsb_exists. exists (k, r). split.
    + now apply list_elem_of_In.
    + simpl. rewrite Hr. now rewrite bool_decide_eq_true_2.
  - destruct (existsb _ _) eqn:He; [|reflexivity].
    apply existsb_exists in He as ([k' r'] & Hin' & Hb). simpl in Hb.
    apply andb_true_iff in Hb as [Ha Hk].
    apply bool_decide_eq_true in Hk. subst k'.
    apply list_elem_of_In in Hin'.
    rewrite (unique_key _ _ _ _ Hnd Hin Hin') in Hr. congruence.
Qed.

Lemma clearIfAgent_with_undo (u : UndoManager) (ed : t) (e : Z * ref) :
  clearIfAgent (with_undo u ed) e = with_undo u (clearIfAgent ed e).
Proof. unfold clearIfAgent; simpl. now destruct (holds _ _ _). Qed.

Lemma clearAgentNotesBody_with_undo (u : UndoManager) (ed : t) :
  clearAgentNotesBody (with_undo u ed) = with_undo u (clearAgentNotesBody ed).
Proof.
  unfold clearAgentNotesBody. simpl.
  generalize (notesMap ed) as l. revert ed.
  assert (H : forall l ed, foldl clearIfAgent (with_undo u ed) l
                           = with_undo u (foldl clearIfAgent ed l)).
  { induction l as [|e l IH]; intros ed; simpl; [reflexivity|].
    now rewrite clearIfAgent_with_undo, IH. }
  intros ed l. apply H.
Qed.

Lemma _addNote_fold_with_undo (u : UndoManager) (l : list ref) (ed : t) :
  foldl (fun e note => _addNote note e) (with_undo u ed) l
  = with_undo u (foldl (fun e note => _addNote note e) ed l).
Proof.
  revert ed. induction l as [|r l IH]; intros ed; simpl; [reflexivity|].
  now rewrite _addNote_with_undo, IH.
Qed.

(** What [addAgentNotes] computes, without the transaction around it. *)
Definition addAgentNotesBody (sequence : list ref) (replace : bool) (ed : t)
  : t :=
  foldl (fun e note => _addNote note e)
    (if replace then clearAgentNotesBody ed else ed) sequence.

Lemma addAgentNotesBody_with_undo (u : UndoManager) sequence replace ed :
  addAgentNotesBody sequence replace (with_undo u ed)
  = with_undo u (addAgentNotesBody sequence replace ed).
Proof.
  unfold addAgentNotesBody. destruct replace.
  - now rewrite clearAgentNotesBody_with_undo, _addNote_fold_with_undo.
  - apply _addNote_fold_with_undo.
Qed.

(** [addAgentNotes] always returns; the nested [clearAgentNotes] runs
    inside the transaction of the outer call. *)
Lemma addAgentNotes_returns (sequence : list ref) (replace : bool) (ed : t) :
  exists u,
    addAgentNotes sequence replace ed
    = Ok (with_undo u (addAgentNotesBody sequence replace ed)).
Proof.
  assert (Hinner : forall e, transactionOpen (undo e) = true ->
     (ed1 ← (if replace then clearAgentNotes e else Ok e);
      Ok (foldl (fun e0 note => _addNote note e0) ed1 sequence))
     = Ok (addAgentNotesBody sequence replace e)).
  { intros e He. unfold addAgentNotesBody, clearAgentNotes, undoable.
    rewrite He. now destruct replace. }
  unfold addAgentNotes, undoable.
  destruct (transactionOpen (undo ed)) eqn:Hopen.
  - rewrite (Hinner ed Hopen).
    exists (undo (addAgentNotesBody sequence replace ed)).
    now destruct (addAgentNotesBody sequence replace ed).
  - unfold beginUndoable. rewrite Hopen.
    change (Ok ?e ≫= ?k) with (k e). cbv beta.
    rewrite Hinner by reflexivity.
    change (Ok ?e ≫= ?k) with (k e). cbv beta.
    rewrite addAgentNotesBody_with_undo. unfold completeUndoable; simpl.
    destruct (decide _); eexists; reflexivity.
Qed.




End agent_notes.

(** X20. [clearAgentNotes] always returns, and removes from the persistent map
    exactly the entries whose note has source AGENT: the other entries stay,
    in their order. Note objects and the temp map are not touched. *)
Theorem clearAgentNotes_removes_agents (ed : Editor.t) :
  NoDup (Editor.notesMap ed).*1 ->
  exists ed',
    Editor.clearAgentNotes ed = Ok ed' /\
    Editor.notesMap ed'
    = List.filter (fun kv => negb (isAgent (Editor.heap ed) kv.2))
        (Editor.notesMap ed) /\
    Editor.heap ed' = Editor.heap ed /\
    Editor.tempNotesMap ed' = Editor.tempNotesMap ed.
Proof.
  intros Hnd.
  destruct (undoable_returns Editor.clearAgentNotesBody ed) as [u Hu].
  { intros u e. apply clearAgentNotesBody_with_undo. }
  eexists. split; [exact Hu|].
  rewrite clearAgentNotesBody_filter by exact Hnd. auto.
Qed.

Lemma clearAgentNotes_removes_agents_witness :
  exists ed',
    Editor.clearAgentNotes two_sopranos = Ok ed' /\
    Editor.notesMap ed' = [(1, 1%positive)].
Proof.
  destruct (clearAgentNotes_removes_agents two_sopranos)
    as (ed' & He & Hm & _).
  - simpl. repeat constructor; rewrite ?elem_of_cons, ?elem_of_nil; lia.
  - exists ed'. split; [exact He|]. rewrite Hm. vm_compute. reflexivity.
Defined.



(** ** Overlap, drag and trim: what they leave alone *)

(** X22. For a note that lasts at least one step and a position range that is
    not empty, [overlaps] is true exactly when the pitch is within the pitch
    range, both ends included, and the span of the note shares a step with
    the position range. *)
Theorem overlaps_iff_shares_a_step (n : Note) (ps pe v0 v1 : Z) :
  0 < duration n -> ps < pe ->
  Editor.overlaps n (ps, pe) (v0, v1) = true <->
  v0 <= pitch n <= v1 /\ Z.max ps (start n) < Z.min pe (end_ n).
Proof.
  intros Hdur Hrange. rewrite overlaps_true. unfold start, end_. lia.
Qed.

Lemma overlaps_iff_shares_a_step_witness :
  Editor.overlaps noteB (0, 5) (60, 70) = true <->
  60 <= pitch noteB <= 70 /\ Z.max 0 (start noteB) < Z.min 5 (end_ noteB).
Proof.
  apply (overlaps_iff_shares_a_step noteB 0 5 60 70); simpl; lia.
Defined.

(** X23. A drag that ends on a free cell deletes nothing: when no other note of
    the store has the pitch and position of the dragged note,
    [endNoteDrag] returns with the persistent map and the note objects as
    they were. *)
Theorem endNoteDrag_free_cell (note : ref) (n : Note) (ed : Editor.t) :
  Editor.transactionOpen (Editor.undo ed) = true ->
  Editor.heap ed !! note = Some n ->
  (forall other o,
     other ∈ Editor.allNotes ed -> other <> note ->
     Editor.heap ed !! other = Some o ->
     ~ (position o = position n /\ pitch o = pitch n)) ->
  exists ed',
    Editor.endNoteDrag note ed = Ok ed' /\
    Editor.notesMap ed' = Editor.notesMap ed /\
    Editor.heap ed' = Editor.heap ed.
Proof.
  intros Hopen Hn Hfree.
  pose proof (endNoteDrag_loop note n (Editor.allNotes ed) ed Hn) as Hloop.
  simpl in Hloop.
  replace (existsb _ _) with false in Hloop.
  - pose proof (resolveConflict_fold_heap note (Editor.allNotes ed) ed) as Hh.
    unfold Editor.endNoteDrag, Editor.completeUndoable.
    rewrite resolveConflict_fold_undo, Hopen.
    destruct (decide _); eexists; (split; [reflexivity|]); simpl; auto.
  - symmetry. apply not_true_iff_false. intros He.
    apply existsb_exists in He as (other & Hin & Hb).
    apply andb_true_iff in Hb as [Hne Hsame].
    apply negb_true_iff, bool_decide_eq_false in Hne.
    unfold Editor.holds in Hsame.
    destruct (Editor.heap ed !! other) as [o|] eqn:Ho; [|discriminate].
    apply andb_true_iff in Hsame as [H1 H2].
    apply bool_decide_eq_true in H1, H2.
    apply (Hfree other o); auto. now apply list_elem_of_In.
Qed.

(** The two notes of [dragged_onto] with the first dropped on step 0, a
    cell of its own. *)
Definition dragged_apart : Editor.t :=
  Editor.mkEditor
    (<[1%positive := mkNote 1 60 0 2 SOPRANO USER false false]>
       (<[2%positive := noteY]> ∅))
    [(1, 1%positive); (2, 2%positive)] [] 32 2 [[]; []; []; []] [] []
    (Editor.mkUndoManager true [noteX; noteY] [] []).

Lemma endNoteDrag_free_cell_witness :
  exists ed',
    Editor.endNoteDrag 1%positive dragged_apart = Ok ed' /\
    Editor.notesMap ed' = Editor.notesMap dragged_apart.
Proof.
  destruct (endNoteDrag_free_cell 1%positive
              (mkNote 1 60 0 2 SOPRANO USER false false) dragged_apart)
    as (ed' & He & Hm & _).
  - reflexivity.
  - reflexivity.
  - intros other o Hin Hne Ho [Hpos _].
    assert (Hall : Editor.allNotes dragged_apart = [1%positive; 2%positive])
      by reflexivity.
    rewrite Hall, !elem_of_cons, elem_of_nil in Hin.
    destruct Hin as [->|[->|[]]]; [contradiction|].
    vm_compute in Ho. injection Ho as <-. discriminate.
  - exists ed'. auto.
Defined.

Section trim_frame.
Import Editor.

Lemma trimOne_fold_frame (note : ref) (l : list ref) (ed : t) (r : ref) :
  r ∉ l ->
  heap (foldl (trimOne note) ed l) !! r = heap ed !! r.
Proof.
  revert ed. induction l as [|a l IH]; intros ed Hr; simpl; [reflexivity|].
  apply not_elem_of_cons in Hr as [Hne Hr].
  rewrite IH by exact Hr. unfold trimOne.
  destruct (heap ed !! a) as [o|]; [|reflexivity].
  destruct (heap ed !! note) as [n|]; [|reflexivity].
  destruct (end_ o >? end_ n); simpl.
  - now rewrite lookup_insert_ne.
  - unfold _removeNote. now destruct (heap ed !! a).
Qed.

Lemma trimOne_fold_rest (note : ref) (l : list ref) (ed : t) :
  tempNotesMap (foldl (trimOne note) ed l) = tempNotesMap ed /\
  generationMasks (foldl (trimOne note) ed l) = generationMasks ed.
Proof.
  revert ed. induction l as [|a l IH]; intros ed; simpl; [auto|].
  destruct (IH (trimOne note ed a)) as [-> ->]. unfold trimOne.
  destruct (heap ed !! a) as [o|]; [|auto].
  destruct (heap ed !! note) as [n|]; [|auto].
  destruct (end_ o >? end_ n); simpl; [auto|].
  unfold _removeNote. now destruct (heap ed !! a).
Qed.

End trim_frame.

(** X24. [trimOverlappingVoices(note)] leaves [note] itself, the notes of the
    other voices and the notes outside the store exactly as they are; of
    any note it changes only the start, never the id, the pitch, the voice
    or the end; it adds no entry to the persistent map and does not touch
    the temp map or the masks. *)
Theorem trimOverlappingVoices_changes_starts_only
    (MIN_PITCH MAX_PITCH : Z) (note : ref) (n : Note) (ed : Editor.t) :
  Editor.heap ed !! note = Some n ->
  let ed' := Editor.trimOverlappingVoices MIN_PITCH MAX_PITCH note ed in
  (forall r o,
     Editor.heap ed !! r = Some o ->
     r = note \/ voice o <> voice n \/ r ∉ Editor.allNotes ed ->
     Editor.heap ed' !! r = Some o) /\
  (forall r o,
     Editor.heap ed !! r = Some o ->
     exists o', Editor.heap ed' !! r = Some o' /\
       id o' = id o /\ pitch o' = pitch o /\ voice o' = voice o /\
       end_ o' = end_ o) /\
  (forall kr, kr ∈ Editor.notesMap ed' -> kr ∈ Editor.notesMap ed) /\
  Editor.tempNotesMap ed' = Editor.tempNotesMap ed /\
  Editor.generationMasks ed' = Editor.generationMasks ed.
Proof.
  intros Hn ed'.
  destruct (trimmed_result MIN_PITCH MAX_PITCH note n ed Hn)
    as [(Hn' & Hheap & Hsub) _].
  fold ed' in Hn', Hheap, Hsub.
  assert (Hfold : ed' = foldl (Editor.trimOne note) ed
                          (overlappingNotes MIN_PITCH MAX_PITCH note n ed))
    by now apply trimOverlappingVoices_fold.
  split; [|split; [|split; [exact Hsub|]]].
  - intros r o Ho Hcase. rewrite Hfold, trimOne_fold_frame; [exact Ho|].
    intros Hin. apply overlappingNotes_elem_of in Hin
      as (Hall & Hne & o' & Ho' & Hv & _).
    rewrite Ho in Ho'. injection Ho' as <-.
    destruct Hcase as [?|[?|?]]; contradiction.
  - intros r o Ho. destruct (Hheap r) as [H|H]; rewrite Ho in H.
    + exists o. auto.
    + exists (truncate n o). split; [exact H|].
      destruct (truncate_keeps n o) as (Hi & Hv & He).
      repeat split; try assumption.
      unfold truncate. now destruct (end_ o >? end_ n).
  - rewrite Hfold. apply trimOne_fold_rest.
Qed.

Lemma trimOverlappingVoices_changes_starts_only_witness :
  Editor.heap
    (Editor.trimOverlappingVoices 0 127 1%positive two_sopranos) !! 1%positive
  = Some noteA.
Proof.
  destruct (trimOverlappingVoices_changes_starts_only 0 127 1%positive noteA
              two_sopranos eq_refl) as (Hsame & _).
  apply (Hsame 1%positive noteA eq_refl). now left.
Defined.

(** ** Playback *)

Section playback.
Import Editor.
Variable position0 : Z.

(** The playhead at [position0] has passed the note behind a reference. *)
Definition passed (h : gmap ref Note) (x : ref) : bool :=
  holds h (fun n => bool_decide (position n + duration n <= position0)) x.

Lemma passed_alter_flag (b : bool) (a : ref) (h : gmap ref Note) (x : ref) :
  passed (alter (setPlayingFlag b) a h) x = passed h x.
Proof.
  unfold passed, holds. rewrite lookup_alter.
  destruct (decide (a = x)) as [->|Hne]; [|reflexivity].
  now destruct (h !! x).
Qed.

Lemma clearIfPassed_eq (e : t) (a : ref) :
  clearIfPassed position0 e a
  = if passed (heap e) a
    then with_playing (JsSet.delete a (currentlyPlayingNotes e))
           (with_heap (alter (setPlayingFlag false) a (heap e)) e)
    else e.
Proof.
  unfold clearIfPassed, passed, holds. now destruct (heap e !! a).
Qed.

Lemma clearIfPassed_fold (l : list ref) (e : t) :
  let e' := foldl (clearIfPassed position0) e l in
  (forall x, passed (heap e') x = passed (heap e) x) /\
  (forall x, x ∈ currentlyPlayingNotes e' <->
             x ∈ currentlyPlayingNotes e /\
             ~ (x ∈ l /\ passed (heap e) x = true)) /\
  (forall x, passed (heap e) x = false -> heap e' !! x = heap e !! x) /\
  notesMap e' = notesMap e /\ tempNotesMap e' = tempNotesMap e.
Proof.
  revert e. induction l as [|a l IH]; intros e; simpl.
  - split; [reflexivity|]. split; [|split; [reflexivity | auto]].
    intros x. split; [|tauto].
    intros Hx. split; [exact Hx|]. intros [Hin _].
    now apply elem_of_nil in Hin.
  - destruct (IH (clearIfPassed position0 e a))
      as (Hpassed & Hplaying & Hheap & Hm & Ht).
    rewrite clearIfPassed_eq in *.
    destruct (passed (heap e) a) eqn:Ha; simpl in *.
    + split; [|split; [|split; [|auto]]].
      * intros x. now rewrite Hpassed, passed_alter_flag.
      * intros x. rewrite Hplaying, JsSet_elem_of_delete, passed_alter_flag.
        rewrite elem_of_cons. split.
        -- intros ((Hne & Hx) & Hrest). split; [exact Hx|].
           intros [[->|Hin] Hp]; [contradiction | tauto].
        -- intros (Hx & Hrest). split; [split; [|exact Hx]|].
           ++ intros ->. apply Hrest. auto.
           ++ intros [Hin Hp]. apply Hrest. auto.
      * intros x Hx. rewrite Hheap by now rewrite passed_alter_flag.
        apply lookup_alter_ne. intros ->. congruence.
    + split; [exact Hpassed|]. split; [|split; [exact Hheap | auto]].
      intros x. rewrite Hplaying, elem_of_cons. split.
      * intros (Hx & Hrest). split; [exact Hx|].
        intros [[->|Hin] Hp]; [congruence | tauto].
      * intros (Hx & Hrest). split; [exact Hx|].
        intros [Hin Hp]. apply Hrest. auto.
Qed.

End playback.

(** X25. When a note sits at the given pitch and position and lasts at least one
    step, [setNotePlaying] returns; the note is then in the currently
    playing set with its flag set, every note left in that set ends after
    the given position (those the playhead has passed are out), and the
    note maps are as before. *)
Theorem setNotePlaying_advances_playhead (pitch0 position0 : Z)
    (r : ref) (n : Note) (ed : Editor.t) :
  Editor.getNoteByPitchPosition pitch0 position0 ed = Some r ->
  Editor.heap ed !! r = Some n ->
  0 < duration n ->
  exists ed',
    Editor.setNotePlaying pitch0 position0 ed = Ok ed' /\
    r ∈ Editor.currentlyPlayingNotes ed' /\
    Editor.heap ed' !! r = Some (Editor.setPlayingFlag true n) /\
    (forall x nx,
       x ∈ Editor.currentlyPlayingNotes ed' ->
       Editor.heap ed' !! x = Some nx ->
       position0 < position nx + duration nx) /\
    Editor.notesMap ed' = Editor.notesMap ed /\
    Editor.tempNotesMap ed' = Editor.tempNotesMap ed.
Proof.
  intros Hfind Hn Hdur.
  assert (Hpos : position n = position0).
  { unfold Editor.getNoteByPitchPosition in Hfind.
    apply find_some in Hfind as [_ Hb]. unfold Editor.holds in Hb.
    rewrite Hn in Hb. apply andb_true_iff in Hb as [_ Hb].
    now apply bool_decide_eq_true in Hb. }
  unfold Editor.setNotePlaying. rewrite Hfind.
  set (ed1 := Editor.setCurrentlyPlaying r ed).
  set (tempNote := _ ≫= _).
  set (ed2 := match tempNote with
              | Some tr => Editor.setCurrentlyPlaying tr ed1
              | None => ed1
              end).
  assert (H2 : Editor.heap ed2 !! r = Some (Editor.setPlayingFlag true n) /\
               r ∈ Editor.currentlyPlayingNotes ed2 /\
               Editor.notesMap ed2 = Editor.notesMap ed /\
               Editor.tempNotesMap ed2 = Editor.tempNotesMap ed).
  { assert (H1 : Editor.heap ed1 !! r = Some (Editor.setPlayingFlag true n)).
    { unfold ed1, Editor.setCurrentlyPlaying; simpl.
      now rewrite lookup_alter_eq, Hn. }
    assert (Hin1 : r ∈ Editor.currentlyPlayingNotes ed1).
    { unfold ed1, Editor.setCurrentlyPlaying; simpl.
      apply JsSet_elem_of_add. now left. }
    unfold ed2. destruct tempNote as [tr|]; [|auto].
    unfold Editor.setCurrentlyPlaying; simpl. split; [|split; [|auto]].
    - change (alter (Editor.setPlayingFlag true) tr (Editor.heap ed1) !! r
              = Some (Editor.setPlayingFlag true n)).
      rewrite lookup_alter. destruct (decide (tr = r)) as [->|Hne].
      + now rewrite H1.
      + exact H1.
    - apply JsSet_elem_of_add. now right. }
  destruct H2 as (Hr2 & Hin2 & Hm2 & Ht2).
  destruct (clearIfPassed_fold position0 (Editor.currentlyPlayingNotes ed2)
              ed2) as (Hpassed & Hplaying & Hheap & Hm & Ht).
  assert (Hnot : passed position0 (Editor.heap ed2) r = false).
  { unfold passed, Editor.holds. rewrite Hr2. simpl.
    apply bool_decide_eq_false. lia. }
  eexists. split; [reflexivity|].
  split; [|split; [|split; [|split; congruence]]].
  - apply Hplaying. split; [exact Hin2|]. intros [_ Hp]. congruence.
  - rewrite Hheap by exact Hnot. exact Hr2.
  - intros x nx Hx Hnx. apply Hplaying in Hx as [Hx Hrest].
    assert (Hp : passed position0 (Editor.heap ed2) x = false).
    { destruct (passed position0 (Editor.heap ed2) x) eqn:Hp; [|reflexivity].
      exfalso. apply Hrest. auto. }
    rewrite <- Hpassed in Hp. unfold passed, Editor.holds in Hp.
    rewrite Hnx in Hp. apply bool_decide_eq_false in Hp. lia.
Qed.

Lemma setNotePlaying_advances_playhead_witness :
  exists ed',
    Editor.setNotePlaying 60 0 single_note = Ok ed' /\
    1%positive ∈ Editor.currentlyPlayingNotes ed'.
Proof.
  destruct (setNotePlaying_advances_playhead 60 0 1%positive
              (mkNote 1 60 0 4 SOPRANO USER false false) single_note)
    as (ed' & He & Hin & _).
  - reflexivity.
  - reflexivity.
  - simpl. lia.
  - exists ed'. auto.
Defined.

Section clear_playing.
Import Editor.

Lemma alter_fold_lookup (f : Note -> Note) (l : list ref)
    (h : gmap ref Note) (x : ref) :
  (forall n, f (f n) = f n) ->
  foldl (fun h r => alter f r h) h l !! x
  = if decide (x ∈ l) then f <$> h !! x else h !! x.
Proof.
  intros Hf. revert h. induction l as [|a l IH]; intros h; cbn [foldl].
  - destruct (decide (x ∈ [])) as [Hin|_]; [|reflexivity].
    now apply elem_of_nil in Hin.
  - rewrite IH, lookup_alter.
    destruct (decide (x ∈ l)) as [Hin|Hout],
             (decide (x ∈ a :: l)) as [Hin'|Hout'],
             (decide (a = x)) as [->|Hne]; try reflexivity.
    + destruct (h !! x); simpl; [now rewrite Hf | reflexivity].
    + exfalso. apply Hout'. now apply list_elem_of_further.
    + exfalso. apply Hout'. now apply list_elem_of_further.
    + exfalso. apply elem_of_cons in Hin' as [->|Hin']; contradiction.
    + exfalso. apply Hout'. apply list_elem_of_here.
Qed.

Lemma clearPlayingNotes_fold (l : list ref) (ed : t) :
  foldl (fun e note =>
           with_heap (alter (setPlayingFlag false) note (heap e)) e) ed l
  = with_heap
      (foldl (fun h r => alter (setPlayingFlag false) r h) (heap ed) l) ed.
Proof.
  revert ed. induction l as [|a l IH]; intros ed; simpl.
  - now destruct ed.
  - now rewrite IH.
Qed.

End clear_playing.

(** X26. After [clearPlayingNotes] nothing is playing: the currently playing set
    is empty and every note of the store has its flag cleared, with nothing
    else of the note changed; notes outside the store and the note maps are
    as before. *)
Theorem clearPlayingNotes_clears_every_flag (ed : Editor.t) :
  let ed' := Editor.clearPlayingNotes ed in
  Editor.currentlyPlayingNotes ed' = [] /\
  (forall r n,
     r ∈ Editor.allNotes ed -> Editor.heap ed !! r = Some n ->
     Editor.heap ed' !! r = Some (Editor.setPlayingFlag false n)) /\
  (forall r, r ∉ Editor.allNotes ed ->
             Editor.heap ed' !! r = Editor.heap ed !! r) /\
  Editor.allNotes ed' = Editor.allNotes ed.
Proof.
  intros ed'. unfold ed', Editor.clearPlayingNotes.
  rewrite clearPlayingNotes_fold. simpl.
  split; [reflexivity|]. split; [|split; [|reflexivity]].
  - intros r n Hr Hn. rewrite alter_fold_lookup by reflexivity.
    replace (Editor.allNotes (Editor.with_playing [] ed))
      with (Editor.allNotes ed) by reflexivity.
    rewrite decide_True by exact Hr. now rewrite Hn.
  - intros r Hr. rewrite alter_fold_lookup by reflexivity.
    replace (Editor.allNotes (Editor.with_playing [] ed))
      with (Editor.allNotes ed) by reflexivity.
    now rewrite decide_False.
Qed.

(** ** The persistent map stays keyed by id *)

(** Every entry of the persistent map is under the id of its note, and no
    id has two entries. *)
Definition well_keyed (ed : Editor.t) : Prop :=
  NoDup (Editor.notesMap ed).*1 /\
  forall k r, (k, r) ∈ Editor.notesMap ed ->
    exists o, Editor.heap ed !! r = Some o /\ id o = k.

(** The methods of the store and the drag of a note, as one type. *)
Inductive StoreMutation : Type :=
  | DoAddNote (note : ref) (shouldSelect : bool)
  | DoAddAgentNotes (sequence : list ref) (replace : bool)
  | DoClearAgentNotes
  | DoClearAllNotes
  | DoRemoveCandidateNoteSequence (notes : list ref)
  | DoReplaceAllNotes (notes : list ref)
  | DoEndNoteDrag (note : ref)
  | DoTrimOverlappingVoices (MIN_PITCH MAX_PITCH : Z) (note : ref)
  | DoSetNotePlaying (pitch0 position0 : Z)
  | DoClearPlayingNotes
  | DoSetTempNotes (notes : list ref) (clear : bool)
  | DoMaskNotes (positionRange pitchRange : Z * Z)
  | DoAddMask (voiceIndex : nat) (mask : list Z)
  | DoRemoveMask (voiceIndex : nat) (mask : list Z)
  | DoHandleNoteDrag (MIN_PITCH MAX_PITCH : Z) (layout : Interactions.Layout)
      (drag : Interactions.DragState) (note : ref) (clientX clientY : Q).

Definition perform (op : StoreMutation) (ed : Editor.t) : result Editor.t :=
  match op with
  | DoAddNote note shouldSelect => Editor.addNote note shouldSelect ed
  | DoAddAgentNotes sequence replace =>
      Editor.addAgentNotes sequence replace ed
  | DoClearAgentNotes => Editor.clearAgentNotes ed
  | DoClearAllNotes => Editor.clearAllNotes ed
  | DoRemoveCandidateNoteSequence notes =>
      Ok (Editor.removeCandidateNoteSequence notes ed)
  | DoReplaceAllNotes notes => Ok (Editor.replaceAllNotes notes ed)
  | DoEndNoteDrag note => Editor.endNoteDrag note ed
  | DoTrimOverlappingVoices lo hi note =>
      Ok (Editor.trimOverlappingVoices lo hi note ed)
  | DoSetNotePlaying pitch0 position0 =>
      Editor.setNotePlaying pitch0 position0 ed
  | DoClearPlayingNotes => Ok (Editor.clearPlayingNotes ed)
  | DoSetTempNotes notes clear => Ok (Editor.setTempNotes notes clear ed)
  | DoMaskNotes positionRange pitchRange =>
      Editor.maskNotes positionRange pitchRange ed
  | DoAddMask v m => Ok (Editor.addMask v m ed)
  | DoRemoveMask v m => Ok (Editor.removeMask v m ed)
  | DoHandleNoteDrag lo hi layout drag note clientX clientY =>
      Ok (Interactions.handleNoteDrag lo hi layout drag note clientX clientY
            ed)
  end.

Section keyed.
Import Editor.

Definition ids_kept (h h' : gmap ref Note) : Prop :=
  forall r o, h !! r = Some o -> exists o', h' !! r = Some o' /\ id o' = id o.

Lemma ids_kept_refl (h : gmap ref Note) : ids_kept h h.
Proof. intros r o Ho. eauto. Qed.

Lemma ids_kept_alter (f : Note -> Note) (a : ref) (h : gmap ref Note) :
  (forall n, id (f n) = id n) -> ids_kept h (alter f a h).
Proof.
  intros Hf r o Ho. rewrite lookup_alter.
  destruct (decide (a = r)) as [->|Hne]; [|eauto].
  rewrite Ho. simpl. eauto.
Qed.

Lemma ids_kept_insert (a : ref) (o o' : Note) (h : gmap ref Note) :
  h !! a = Some o -> id o' = id o -> ids_kept h (<[a := o']> h).
Proof.
  intros Ha Hid r o0 Ho0. destruct (decide (a = r)) as [->|Hne].
  - rewrite lookup_insert_eq. exists o'. split; [reflexivity|]. congruence.
  - rewrite lookup_insert_ne by exact Hne. eauto.
Qed.

Lemma JsMap_set_elem_of {V} (k : Z) (v : V) (m : JsMap.t V) (kv : Z * V) :
  kv ∈ JsMap.set k v m -> kv ∈ m \/ kv = (k, v).
Proof.
  unfold JsMap.set. destruct (JsMap.has k m).
  - rewrite list_elem_of_fmap. intros [kv0 [-> Hin]].
    destruct (decide (kv0.1 = k)); auto.
  - rewrite elem_of_app, list_elem_of_singleton. tauto.
Qed.

(** The ways a method changes the persistent map in one step. *)
Definition map_step (ed ed' : t) : Prop :=
  notesMap ed' = notesMap ed \/
  (exists k, notesMap ed' = JsMap.delete k (notesMap ed)) \/
  (exists note n, heap ed !! note = Some n /\
                  notesMap ed' = JsMap.set (id n) note (notesMap ed)) \/
  notesMap ed' = [].

Lemma well_keyed_step (ed ed' : t) :
  ids_kept (heap ed) (heap ed') -> map_step ed ed' ->
  well_keyed ed -> well_keyed ed'.
Proof.
  intros Hids Hmap [Hnd Hkeyed].
  assert (Hold : forall k r, (k, r) ∈ notesMap ed ->
            exists o, heap ed' !! r = Some o /\ id o = k).
  { intros k r Hin. destruct (Hkeyed k r Hin) as (o & Ho & Hid).
    destruct (Hids r o Ho) as (o' & Ho' & Hid'). exists o'. split; congruence. }
  destruct Hmap as [Hm|[[k Hm]|[(note & n & Hn & Hm)|Hm]]];
    unfold well_keyed; rewrite Hm.
  - auto.
  - split; [now apply JsMap_delete_NoDup|].
    intros k' r Hin. apply Hold. now apply JsMap_delete_subset in Hin.
  - split; [now apply JsMap_set_NoDup|].
    intros k' r Hin. apply JsMap_set_elem_of in Hin as [Hin|[= -> ->]].
    + now apply Hold.
    + destruct (Hids note n Hn) as (o' & Ho' & Hid'). eauto.
  - split; [apply NoDup_nil_2|]. intros k r Hin.
    now apply elem_of_nil in Hin.
Qed.

Lemma well_keyed_same (ed ed' : t) :
  heap ed' = heap ed -> notesMap ed' = notesMap ed ->
  well_keyed ed -> well_keyed ed'.
Proof.
  intros Hh Hm. apply well_keyed_step.
  - rewrite Hh. apply ids_kept_refl.
  - now left.
Qed.

Lemma well_keyed_fold {B} (f : t -> B -> t) (l : list B) (ed : t) :
  (forall e b, ids_kept (heap e) (heap (f e b)) /\ map_step e (f e b)) ->
  well_keyed ed -> well_keyed (foldl f ed l).
Proof.
  intros Hf Hwk. apply (foldl_invariant f well_keyed); [exact Hwk|].
  intros e b _. destruct (Hf e b). now apply well_keyed_step.
Qed.

Lemma _addNote_step (e : t) (note : ref) :
  ids_kept (heap e) (heap (_addNote note e)) /\ map_step e (_addNote note e).
Proof.
  unfold _addNote. destruct (heap e !! note) as [n|] eqn:Hn; simpl.
  - split; [apply ids_kept_refl|]. right. right. left. eauto.
  - split; [apply ids_kept_refl | now left].
Qed.

Lemma _removeNote_step (e : t) (note : ref) :
  ids_kept (heap e) (heap (_removeNote note e)) /\
  map_step e (_removeNote note e).
Proof.
  unfold _removeNote. destruct (heap e !! note) as [n|]; simpl.
  - split; [apply ids_kept_refl|]. right. left. eauto.
  - split; [apply ids_kept_refl | now left].
Qed.

Lemma clearIfAgent_step (e : t) (entry : Z * ref) :
  ids_kept (heap e) (heap (clearIfAgent e entry)) /\
  map_step e (clearIfAgent e entry).
Proof.
  unfold clearIfAgent. destruct (holds _ _ _); simpl.
  - split; [apply ids_kept_refl|]. right. left. eauto.
  - split; [apply ids_kept_refl | now left].
Qed.

Lemma resolveConflict_step (note : ref) (e : t) (other : ref) :
  ids_kept (heap e) (heap (resolveConflict note e other)) /\
  map_step e (resolveConflict note e other).
Proof.
  unfold resolveConflict.
  destruct (decide (other = note));
    [split; [apply ids_kept_refl | now left]|].
  destruct (heap e !! other), (heap e !! note);
    try (split; [apply ids_kept_refl | now left]).
  destruct (_ && _); simpl.
  - split; [apply ids_kept_refl|]. right. left. eauto.
  - split; [apply ids_kept_refl | now left].
Qed.

Lemma trimOne_step (note : ref) (e : t) (other : ref) :
  ids_kept (heap e) (heap (trimOne note e other)) /\
  map_step e (trimOne note e other).
Proof.
  unfold trimOne.
  destruct (heap e !! other) as [o|] eqn:Ho;
    [|split; [apply ids_kept_refl | now left]].
  destruct (heap e !! note);
    [|split; [apply ids_kept_refl | now left]].
  destruct (end_ o >? end_ _); simpl.
  - split; [|now left]. now apply (ids_kept_insert other o).
  - apply _removeNote_step.
Qed.

Lemma setCurrentlyPlaying_step (e : t) (note : ref) :
  ids_kept (heap e) (heap (setCurrentlyPlaying note e)) /\
  map_step e (setCurrentlyPlaying note e).
Proof.
  unfold setCurrentlyPlaying; simpl. split; [|now left].
  now apply ids_kept_alter.
Qed.

Lemma clearIfPassed_step (position0 : Z) (e : t) (x : ref) :
  ids_kept (heap e) (heap (clearIfPassed position0 e x)) /\
  map_step e (clearIfPassed position0 e x).
Proof.
  rewrite clearIfPassed_eq. destruct (passed _ _ _); simpl.
  - split; [|now left]. now apply ids_kept_alter.
  - split; [apply ids_kept_refl | now left].
Qed.

Lemma well_keyed_with_undo (u : UndoManager) (ed : t) :
  well_keyed ed -> well_keyed (with_undo u ed).
Proof. now apply well_keyed_same. Qed.

Lemma well_keyed_completeUndoable (ed ed' : t) :
  completeUndoable ed = Ok ed' -> well_keyed ed -> well_keyed ed'.
Proof.
  unfold completeUndoable. destruct (transactionOpen (undo ed));
    [|discriminate].
  destruct (decide _); intros [= <-]; apply well_keyed_with_undo.
Qed.

End keyed.

(** X27. Whichever method of the store runs, and wherever a note is dragged, a
    persistent map that holds each note under the note's own id, one entry
    for each id, still does so when the method returns. *)
Theorem store_stays_keyed_by_id (op : StoreMutation) (ed ed' : Editor.t) :
  perform op ed = Ok ed' ->
  well_keyed ed ->
  well_keyed ed'.
Proof.
  intros Hrun Hwk.
  destruct op as [note sel|sequence replace| | |notes|notes|note|lo hi note
                 |p0 pos0| |notes clear|pr pi|v m|v m
                 |lo hi layout drag note cx cy]; simpl in Hrun.
  - destruct (undoable_returns
                (fun e => let e := Editor._addNote note e in
                          if sel then Editor.with_selected [note] e else e)
                ed) as [u Hu].
    { intros u e. cbv zeta. rewrite _addNote_with_undo. now destruct sel. }
    assert (Hu' : Editor.addNote note sel ed
                  = Ok (Editor.with_undo u
                          (let e := Editor._addNote note ed in
                           if sel then Editor.with_selected [note] e else e)))
      by exact Hu.
    rewrite Hu' in Hrun.
    injection Hrun as <-. apply well_keyed_with_undo. cbv zeta.
    destruct (_addNote_step ed note) as [Hids Hmap].
    destruct sel; [|now apply (well_keyed_step ed)].
    apply (well_keyed_same (Editor._addNote note ed)); [reflexivity..|].
    now apply (well_keyed_step ed).
  - destruct (addAgentNotes_returns sequence replace ed) as [u Hu].
    rewrite Hu in Hrun. injection Hrun as <-.
    apply well_keyed_with_undo. unfold addAgentNotesBody.
    apply well_keyed_fold; [intros e b; apply _addNote_step|].
    destruct replace; [|exact Hwk].
    unfold Editor.clearAgentNotesBody.
    apply well_keyed_fold; [intros e b; apply clearIfAgent_step | exact Hwk].
  - destruct (undoable_returns Editor.clearAgentNotesBody ed) as [u Hu].
    { intros u e. apply clearAgentNotesBody_with_undo. }
    unfold Editor.clearAgentNotes in Hrun. rewrite Hu in Hrun.
    injection Hrun as <-. apply well_keyed_with_undo.
    unfold Editor.clearAgentNotesBody.
    apply well_keyed_fold; [intros e b; apply clearIfAgent_step | exact Hwk].
  - destruct (undoable_returns (Editor.with_notesMap []) ed) as [u Hu].
    { reflexivity. }
    unfold Editor.clearAllNotes in Hrun. rewrite Hu in Hrun.
    injection Hrun as <-. apply well_keyed_with_undo.
    apply (well_keyed_step ed); [apply ids_kept_refl | | exact Hwk].
    right. right. now right.
  - injection Hrun as <-. unfold Editor.removeCandidateNoteSequence.
    apply well_keyed_fold; [intros e b; apply _removeNote_step | exact Hwk].
  - injection Hrun as <-. unfold Editor.replaceAllNotes.
    apply well_keyed_fold; [intros e b; apply _addNote_step|].
    apply (well_keyed_step ed); [apply ids_kept_refl | | exact Hwk].
    right. right. now right.
  - unfold Editor.endNoteDrag in Hrun.
    apply (well_keyed_completeUndoable _ _ Hrun).
    apply well_keyed_fold;
      [intros e b; apply resolveConflict_step | exact Hwk].
  - injection Hrun as <-. unfold Editor.trimOverlappingVoices.
    destruct (Editor.heap ed !! note); [|exact Hwk].
    apply well_keyed_fold; [intros e b; apply trimOne_step | exact Hwk].
  - unfold Editor.setNotePlaying in Hrun.
    destruct (Editor.getNoteByPitchPosition p0 pos0 ed) as [r|];
      [|discriminate].
    injection Hrun as <-.
    apply well_keyed_fold; [intros e b; apply clearIfPassed_step|].
    assert (H1 : well_keyed (Editor.setCurrentlyPlaying r ed)).
    { destruct (setCurrentlyPlaying_step ed r).
      now apply (well_keyed_step ed). }
    destruct (_ ≫= _) as [tr|]; [|exact H1].
    destruct (setCurrentlyPlaying_step (Editor.setCurrentlyPlaying r ed) tr).
    now apply (well_keyed_step (Editor.setCurrentlyPlaying r ed)).
  - injection Hrun as <-. unfold Editor.clearPlayingNotes.
    apply well_keyed_fold.
    + intros e b. simpl. split; [|now left]. now apply ids_kept_alter.
    + now apply (well_keyed_same ed).
  - injection Hrun as <-. unfold Editor.setTempNotes.
    apply well_keyed_fold.
    + intros e b. unfold Editor._addTempNote.
      destruct (Editor.heap e !! b); simpl;
        (split; [apply ids_kept_refl | now left]).
    + destruct clear; [now apply (well_keyed_same ed) | exact Hwk].
  - destruct (maskNotes_returns pr pi ed) as [u Hu].
    rewrite Hu in Hrun. injection Hrun as <-.
    apply well_keyed_with_undo.
    destruct (maskNotesBody_heap pr pi ed) as (Hh & _ & Hm & _).
    now apply (well_keyed_same ed).
  - injection Hrun as <-. now apply (well_keyed_same ed).
  - injection Hrun as <-. now apply (well_keyed_same ed).
  - injection Hrun as <-. unfold Interactions.handleNoteDrag.
    destruct (Interactions.nextNoteCell _ _ _ _ _ _ _) as [np nv].
    destruct (Editor.heap ed !! note) as [n|] eqn:Hn; [|exact Hwk].
    destruct (_ || _); [|exact Hwk].
    apply (well_keyed_step ed); [|now left | exact Hwk].
    now apply (ids_kept_insert note n).
Qed.

Lemma store_stays_keyed_by_id_witness :
  well_keyed (Editor.trimOverlappingVoices 0 127 1%positive two_sopranos).
Proof.
  apply (store_stays_keyed_by_id (DoTrimOverlappingVoices 0 127 1%positive)
           two_sopranos).
  - reflexivity.
  - split.
    + simpl. repeat constructor; rewrite ?elem_of_cons, ?elem_of_nil; lia.
    + intros k r Hkr. simpl in Hkr.
      rewrite !elem_of_cons, elem_of_nil in Hkr.
      destruct Hkr as [[= -> ->]|[[= -> ->]|[]]].
      * exists noteA. split; reflexivity.
      * exists noteB. split; reflexivity.
Defined.

(** ** The flag-toggling editor: cells, playback and drag conflicts *)

Section flag_cells.
Import FlagEditor.
Implicit Types (m : list (Key * ref)) (k : Key).

Lemma keyGet_None k m : keyGet k m = None <-> k ∉ m.*1.
Proof.
  induction m as [|[k0 v0] m IH]; simpl.
  - split; [intros _; apply not_elem_of_nil | reflexivity].
  - rewrite not_elem_of_cons. destruct (decide (k0 = k)) as [->|Hne].
    + split; [discriminate | intros [H _]; contradiction].
    + rewrite IH. split; [intros H; split; [congruence | exact H] | tauto].
Qed.

Lemma keyGet_app k m1 m2 :
  keyGet k (m1 ++ m2)
  = match keyGet k m1 with Some v => Some v | None => keyGet k m2 end.
Proof.
  induction m1 as [|[k0 v0] m1 IH]; simpl; [reflexivity|].
  now destruct (decide (k0 = k)).
Qed.

Lemma keyGet_keySet_eq k (v : ref) m : keyGet k (keySet k v m) = Some v.
Proof.
  unfold keySet, keyHas.
  destruct (bool_decide (k ∈ m.*1)) eqn:Hk.
  - apply bool_decide_eq_true in Hk.
    induction m as [|[k0 v0] m IH]; simpl in *.
    + now apply elem_of_nil in Hk.
    + destruct (decide (k0 = k)) as [->|Hne]; simpl.
      * now rewrite decide_True.
      * rewrite decide_False by exact Hne. apply IH.
        apply elem_of_cons in Hk as [Hk|Hk]; [congruence | exact Hk].
  - apply bool_decide_eq_false in Hk. rewrite keyGet_app.
    apply keyGet_None in Hk. rewrite Hk. simpl. now rewrite decide_True.
Qed.

Lemma keyGet_keySet_ne k k' (v : ref) m :
  k' <> k -> keyGet k' (keySet k v m) = keyGet k' m.
Proof.
  intros Hne. unfold keySet. destruct (keyHas k m).
  - induction m as [|[k0 v0] m IH]; simpl; [reflexivity|].
    destruct (decide (k0 = k)) as [->|Hk0]; simpl.
    + rewrite !decide_False by congruence. exact IH.
    + destruct (decide (k0 = k')); [reflexivity | exact IH].
  - rewrite keyGet_app. destruct (keyGet k' m); [reflexivity|].
    simpl. now rewrite decide_False by congruence.
Qed.

Lemma keyHas_keyGet k m : keyHas k m = true <-> keyGet k m <> None.
Proof.
  unfold keyHas. rewrite bool_decide_eq_true, keyGet_None.
  split; [tauto|]. intros H. destruct (decide (k ∈ m.*1)); tauto.
Qed.

Lemma keyHas_keyDelete k m : keyHas k (keyDelete k m) = false.
Proof.
  unfold keyHas, keyDelete. apply bool_decide_eq_false.
  rewrite list_elem_of_fmap. intros [kv [-> Hin]].
  apply list_elem_of_filter in Hin as [Hne _]. now apply Hne.
Qed.

Lemma keyGet_keyDelete_ne k k' m :
  k' <> k -> keyGet k' (keyDelete k m) = keyGet k' m.
Proof.
  intros Hne. unfold keyDelete.
  induction m as [|[k0 v] m IH]; [reflexivity|].
  rewrite filter_cons; simpl.
  destruct (decide (k0 ≠ k)) as [Hk|Hk]; simpl.
  - now rewrite IH.
  - destruct (decide (k0 = k')) as [->|_]; [|exact IH].
    exfalso. apply Hk. exact Hne.
Qed.

Lemma keyDelete_idemp k m : keyDelete k (keyDelete k m) = keyDelete k m.
Proof.
  unfold keyDelete. induction m as [|[k0 v] m IH]; [reflexivity|].
  rewrite filter_cons; simpl.
  destruct (decide (k0 ≠ k)) as [Hk|Hk]; [|exact IH].
  rewrite filter_cons; simpl.
  destruct (decide (k0 ≠ k)); [|contradiction]. now rewrite IH.
Qed.

End flag_cells.

(** X28. In the flag-toggling editor a note that is added is registered under
    its cell: [overlapsWithUserNote] then answers true for its pitch and
    position, the note is the one found there (a note that was on the cell
    is replaced), the selection is the note alone, and the other cells are
    as before. *)
Theorem flag_addNote_occupies_cell (note : ref) (n : FlagEditor.Note)
    (ed : FlagEditor.t) :
  FlagEditor.heap ed !! note = Some n ->
  let ed' := FlagEditor.addNote note ed in
  let key := FlagEditor.makeNoteKey (FlagEditor.value n)
               (FlagEditor.position n) in
  FlagEditor.overlapsWithUserNote (FlagEditor.value n) (FlagEditor.position n)
    ed' = true /\
  FlagEditor.keyGet key (FlagEditor.userNotesMap ed') = Some note /\
  (forall k, k <> key ->
     FlagEditor.keyGet k (FlagEditor.userNotesMap ed')
     = FlagEditor.keyGet k (FlagEditor.userNotesMap ed)) /\
  FlagEditor.currentlySelectedNotes ed' = [note] /\
  FlagEditor.agentNotesMap ed' = FlagEditor.agentNotesMap ed /\
  FlagEditor.heap ed' = FlagEditor.heap ed.
Proof.
  intros Hn ed' key. unfold ed', FlagEditor.addNote. rewrite Hn. simpl.
  fold key. split; [|split; [|split; [|auto]]].
  - unfold FlagEditor.overlapsWithUserNote; simpl. fold key.
    apply keyHas_keyGet. now rewrite keyGet_keySet_eq.
  - apply keyGet_keySet_eq.
  - intros k Hk. now apply keyGet_keySet_ne.
Qed.

Definition flagNote : FlagEditor.Note :=
  FlagEditor.mkNote 60 4 2 0 USER false false.

Definition flag_one_note : FlagEditor.t :=
  FlagEditor.mkEditor {[ 1%positive := flagNote ]} [] [] [] [].

Lemma flag_addNote_occupies_cell_witness :
  FlagEditor.overlapsWithUserNote 60 4
    (FlagEditor.addNote 1%positive flag_one_note) = true.
Proof.
  apply (flag_addNote_occupies_cell 1%positive flagNote flag_one_note).
  reflexivity.
Defined.

Section flag_drag.
Import FlagEditor.

Lemma flag_resolveConflict_fold (note : ref) (n : Note) (l : list ref)
    (ed : t) :
  heap ed !! note = Some n ->
  let key := makeNoteKey (value n) (position n) in
  let conflict :=
    existsb (fun other =>
               match heap ed !! other with
               | Some o => bool_decide (position o = position n) &&
                           bool_decide (value o = value n)
               | None => false
               end) l in
  foldl (resolveConflict note) ed l
  = if conflict then with_userNotesMap (keyDelete key (userNotesMap ed)) ed
    else ed.
Proof.
  intros Hn key. simpl.
  assert (Hgen : forall l m,
    (foldl (resolveConflict note) (with_userNotesMap m ed) l
     = with_userNotesMap
         (if existsb (fun other =>
                        match heap ed !! other with
                        | Some o => bool_decide (position o = position n) &&
                                    bool_decide (value o = value n)
                        | None => false
                        end) l
          then keyDelete key m else m) ed) /\
    (foldl (resolveConflict note)
           (with_userNotesMap (keyDelete key m) ed) l
     = with_userNotesMap (keyDelete key m) ed)).
  { clear l. induction l as [|o l IH]; intros m; simpl.
    - split; reflexivity.
    - unfold resolveConflict at 2 4; simpl. rewrite Hn.
      destruct (heap ed !! o) as [on|]; simpl; [|apply IH].
      destruct (bool_decide (position on = position n) &&
                bool_decide (value on = value n)) eqn:Hc; simpl; [|apply IH].
      apply andb_true_iff in Hc as [H1 H2].
      apply bool_decide_eq_true in H1, H2.
      unfold makeNoteKey. rewrite H1, H2. fold (makeNoteKey (value n)
                                                  (position n)). fold key.
      unfold with_userNotesMap; simpl. rewrite keyDelete_idemp.
      split; apply IH. }
  destruct (Hgen l (userNotesMap ed)) as [H _].
  replace (with_userNotesMap (userNotesMap ed) ed) with ed in H
    by now destruct ed.
  rewrite H. destruct (existsb _ l); [reflexivity | now destruct ed].
Qed.

End flag_drag.

(** X29. In the flag-toggling editor [endNoteDrag] frees the cell of the dragged
    note: when a user note has the pitch and position of the dragged note
    (the dragged note itself counts), no user note is registered under that
    cell afterwards, and when none has, the map is as before. The other
    cells, the agent notes and the note objects are never touched. *)
Theorem flag_endNoteDrag_frees_cell (note : ref) (n : FlagEditor.Note)
    (ed : FlagEditor.t) :
  FlagEditor.heap ed !! note = Some n ->
  let ed' := FlagEditor.endNoteDrag note ed in
  let key := FlagEditor.makeNoteKey (FlagEditor.value n)
               (FlagEditor.position n) in
  ((exists other o,
      other ∈ FlagEditor.userNotes ed /\
      FlagEditor.heap ed !! other = Some o /\
      FlagEditor.position o = FlagEditor.position n /\
      FlagEditor.value o = FlagEditor.value n) ->
   FlagEditor.overlapsWithUserNote (FlagEditor.value n)
     (FlagEditor.position n) ed' = false) /\
  ((forall other o,
      other ∈ FlagEditor.userNotes ed ->
      FlagEditor.heap ed !! other = Some o ->
      ~ (FlagEditor.position o = FlagEditor.position n /\
         FlagEditor.value o = FlagEditor.value n)) ->
   FlagEditor.userNotesMap ed' = FlagEditor.userNotesMap ed) /\
  (forall k, k <> key ->
     FlagEditor.keyGet k (FlagEditor.userNotesMap ed')
     = FlagEditor.keyGet k (FlagEditor.userNotesMap ed)) /\
  FlagEditor.agentNotesMap ed' = FlagEditor.agentNotesMap ed /\
  FlagEditor.heap ed' = FlagEditor.heap ed.
Proof.
  intros Hn ed' key. unfold ed', FlagEditor.endNoteDrag.
  rewrite (flag_resolveConflict_fold note n _ ed Hn). fold key.
  destruct (existsb _ _) eqn:Hc.
  - split; [|split; [|split; [|auto]]].
    + intros _. unfold FlagEditor.overlapsWithUserNote; simpl. fold key.
      apply keyHas_keyDelete.
    + intros Hfree. exfalso.
      apply existsb_exists in Hc as (other & Hin & Hb).
      destruct (FlagEditor.heap ed !! other) as [o|] eqn:Ho; [|discriminate].
      apply andb_true_iff in Hb as [H1 H2].
      apply bool_decide_eq_true in H1, H2.
      apply (Hfree other o); auto. now apply list_elem_of_In.
    + intros k Hk. simpl. now apply keyGet_keyDelete_ne.
  - split; [|split; [|split; [|auto]]]; [|reflexivity..].
    intros (other & o & Hin & Ho & H1 & H2). exfalso.
    apply not_true_iff_false in Hc. apply Hc.
    apply existsb_exists. exists other. split; [now apply list_elem_of_In|].
    rewrite Ho, H1, H2. now rewrite !bool_decide_eq_true_2.
Qed.

Lemma flag_endNoteDrag_frees_cell_witness :
  FlagEditor.overlapsWithUserNote 60 4
    (FlagEditor.endNoteDrag 1%positive
       (FlagEditor.addNote 1%positive flag_one_note)) = false.
Proof.
  destruct (flag_endNoteDrag_frees_cell 1%positive flagNote
              (FlagEditor.addNote 1%positive flag_one_note) eq_refl)
    as [Hfreed _].
  apply Hfreed. exists 1%positive, flagNote.
  split; [|split; [reflexivity | split; reflexivity]].
  apply list_elem_of_here.
Defined.

Section flag_playback.
Import FlagEditor.
Variable position0 : Z.

Definition flag_passed (h : gmap ref Note) (x : ref) : bool :=
  match h !! x with
  | Some n => bool_decide (position n + duration n <= position0)
  | None => false
  end.

Lemma flag_passed_alter_flag (b : bool) (a : ref) (h : gmap ref Note)
    (x : ref) :
  flag_passed (alter (setPlayingFlag b) a h) x = flag_passed h x.
Proof.
  unfold flag_passed. rewrite lookup_alter.
  destruct (decide (a = x)) as [->|Hne]; [|reflexivity].
  now destruct (h !! x).
Qed.

Lemma flag_clearIfPassed_eq (e : t) (a : ref) :
  clearIfPassed position0 e a
  = if flag_passed (heap e) a
    then with_playing (JsSet.delete a (currentlyPlayingNotes e))
           (with_heap (alter (setPlayingFlag false) a (heap e)) e)
    else e.
Proof.
  unfold clearIfPassed, flag_passed. now destruct (heap e !! a).
Qed.

Lemma flag_clearIfPassed_fold (l : list ref) (e : t) :
  let e' := foldl (clearIfPassed position0) e l in
  (forall x, flag_passed (heap e') x = flag_passed (heap e) x) /\
  (forall x, x ∈ currentlyPlayingNotes e' <->
             x ∈ currentlyPlayingNotes e /\
             ~ (x ∈ l /\ flag_passed (heap e) x = true)) /\
  userNotesMap e' = userNotesMap e /\ agentNotesMap e' = agentNotesMap e.
Proof.
  revert e. induction l as [|a l IH]; intros e; simpl.
  - split; [reflexivity|]. split; [|auto].
    intros x. split; [|tauto].
    intros Hx. split; [exact Hx|]. intros [Hin _].
    now apply elem_of_nil in Hin.
  - destruct (IH (clearIfPassed position0 e a))
      as (Hpassed & Hplaying & Hm & Ht).
    rewrite flag_clearIfPassed_eq in *.
    destruct (flag_passed (heap e) a) eqn:Ha; simpl in *.
    + split; [|split; [|auto]].
      * intros x. now rewrite Hpassed, flag_passed_alter_flag.
      * intros x.
        rewrite Hplaying, JsSet_elem_of_delete, flag_passed_alter_flag.
        rewrite elem_of_cons. split.
        -- intros ((Hne & Hx) & Hrest). split; [exact Hx|].
           intros [[->|Hin] Hp]; [contradiction | tauto].
        -- intros (Hx & Hrest). split; [split; [|exact Hx]|].
           ++ intros ->. apply Hrest. auto.
           ++ intros [Hin Hp]. apply Hrest. auto.
    + split; [exact Hpassed|]. split; [|auto].
      intros x. rewrite Hplaying, elem_of_cons. split.
      * intros (Hx & Hrest). split; [exact Hx|].
        intros [[->|Hin] Hp]; [congruence | tauto].
      * intros (Hx & Hrest). split; [exact Hx|].
        intros [Hin Hp]. apply Hrest. auto.
Qed.

End flag_playback.

(** X30. In the flag-toggling editor [setNotePlaying] has no failing case. After
    it, every note left in the currently playing set ends after the given
    position, and the note maps are as before; when neither map has a note
    at the given pitch and position, nothing joins the set. *)
Theorem flag_setNotePlaying_miss_is_silent (pitch0 position0 : Z)
    (ed : FlagEditor.t) :
  let ed' := FlagEditor.setNotePlaying pitch0 position0 ed in
  let key := FlagEditor.makeNoteKey pitch0 position0 in
  (forall x nx,
     x ∈ FlagEditor.currentlyPlayingNotes ed' ->
     FlagEditor.heap ed' !! x = Some nx ->
     position0 < FlagEditor.position nx + FlagEditor.duration nx) /\
  (FlagEditor.keyGet key (FlagEditor.userNotesMap ed) = None ->
   FlagEditor.keyGet key (FlagEditor.agentNotesMap ed) = None ->
   forall x, x ∈ FlagEditor.currentlyPlayingNotes ed' ->
             x ∈ FlagEditor.currentlyPlayingNotes ed) /\
  FlagEditor.userNotesMap ed' = FlagEditor.userNotesMap ed /\
  FlagEditor.agentNotesMap ed' = FlagEditor.agentNotesMap ed.
Proof.
  intros ed' key. unfold ed', FlagEditor.setNotePlaying. fold key.
  set (ed1 := match FlagEditor.keyGet key (FlagEditor.userNotesMap ed) with
              | Some r => FlagEditor.setCurrentlyPlaying r ed
              | None => ed
              end).
  set (ed2 := match FlagEditor.keyGet key (FlagEditor.agentNotesMap ed) with
              | Some r => FlagEditor.setCurrentlyPlaying r ed1
              | None => ed1
              end).
  assert (Hmaps : FlagEditor.userNotesMap ed2 = FlagEditor.userNotesMap ed /\
                  FlagEditor.agentNotesMap ed2 = FlagEditor.agentNotesMap ed).
  { unfold ed2, ed1.
    destruct (FlagEditor.keyGet key (FlagEditor.userNotesMap ed)),
             (FlagEditor.keyGet key (FlagEditor.agentNotesMap ed)); auto. }
  destruct Hmaps as [Hu2 Ha2].
  destruct (flag_clearIfPassed_fold position0
              (FlagEditor.currentlyPlayingNotes ed2) ed2)
    as (Hpassed & Hplaying & Hu & Ha).
  split; [|split; [|split; congruence]].
  - intros x nx Hx Hnx. apply Hplaying in Hx as [Hx Hrest].
    assert (Hp : flag_passed position0 (FlagEditor.heap ed2) x = false).
    { destruct (flag_passed position0 (FlagEditor.heap ed2) x) eqn:Hp;
        [|reflexivity].
      exfalso. apply Hrest. auto. }
    rewrite <- Hpassed in Hp. unfold flag_passed in Hp.
    rewrite Hnx in Hp. apply bool_decide_eq_false in Hp. lia.
  - intros Huser Hagent x Hx. apply Hplaying in Hx as [Hx _].
    unfold ed2, ed1 in Hx. now rewrite Huser, Hagent in Hx.
Qed.
